(** * Membership application workflow: the state machine of
      [applications/fsm.ts] and the route handlers of
      [applications/routes.ts], embedded over an explicit store.

    The relational store (Prisma over PostgreSQL) is modelled as a record
    holding the [MembershipApplication] table as a finite map keyed by id,
    the [ApplicationEvent] table as a list in insertion order, and the
    ownership column of the [Company] table.  Database calls are
    computations in a state-and-error monad; [prisma_transaction] is the
    interactive transaction, which discards every write of its body when
    the body throws.  The wall clock ([new Date()]), the id generator and
    the infrastructure faults of the store are inputs of each call.  Calls
    are composed one after the other ([reachable], [run]) and, for the
    submit handler, whose check comes before its transaction, also with
    other calls served between its two halves ([attainable], [play]). *)

From stdpp Require Import gmap strings list fin_maps sorting.
From Stdlib Require Import ZArith.

Open Scope Z_scope.

(** ** Enumerations of the schema (migration.sql) and of fsm.ts *)

Inductive Role : Set :=
  | ADMIN | NATIONAL_SECRETARIAT | REGIONAL_SECRETARIAT | COMPANY_REP | MEMBER.

Inductive AppState : Set :=
  | DRAFT | SUBMITTED | REGION_REVIEW | REQUESTED_CHANGES
  | NATIONAL_REVIEW | APPROVED | REJECTED.

Inductive Transition : Set :=
  | submit | request_info | region_approve | national_approve | reject.

#[global] Instance Role_eq_dec : EqDecision Role.
Proof. solve_decision. Defined.
#[global] Instance AppState_eq_dec : EqDecision AppState.
Proof. solve_decision. Defined.
#[global] Instance Transition_eq_dec : EqDecision Transition.
Proof. solve_decision. Defined.

(** [Array.prototype.includes] on arrays of enumeration values. *)
Definition includes {A : Type} `{EqDecision A} (l : list A) (x : A) : bool :=
  bool_decide (x ∈ l).

(** ** fsm.ts *)

Definition allowed (state : AppState) : list Transition :=
  match state with
  | DRAFT => [submit]
  | SUBMITTED => [request_info; region_approve; reject]
  | REGION_REVIEW => [request_info; region_approve; reject]
  | REQUESTED_CHANGES => [submit]
  | NATIONAL_REVIEW => [national_approve; reject]
  | APPROVED => []
  | REJECTED => []
  end.

Definition can (state : AppState) (action : Transition) : bool :=
  includes (allowed state) action.

(** ** Rows of the tables *)

(** Timestamps are milliseconds since the epoch. *)
Definition Time : Set := Z.

(** The form payload is carried and never inspected; its JSON text stands
    for it. *)
Definition Json : Set := string.

Record MembershipApplication : Set := mkApplication {
  id : string;
  companyId : string;
  submittedById : string;
  regionId : string;
  state : AppState;
  reasonRejected : option string;
  form : Json;
  submittedAt : option Time;
  decidedAt : option Time;
  createdAt : Time
}.

(** The [data] argument of [transition]: the handlers build [{}],
    [{ note }] or [{ reasonRejected }] from the request body.  [None] is a
    field that is [undefined] or [null]. *)
Record TransitionData : Set := mkData {
  note : option string;
  data_reasonRejected : option string
}.

Definition emptyData : TransitionData :=
  {| note := None; data_reasonRejected := None |}.

Record ApplicationEvent : Set := mkEvent {
  applicationId : string;
  action : Transition;
  actorId : string;
  event_at : Time;
  meta : TransitionData
}.

(** [req.user] as [authenticateToken] fills it in. *)
Record AuthenticatedUser : Set := mkUser {
  user_id : string;
  email : string;
  username : string;
  role : Role;
  user_regionId : option string
}.

Record Store : Type := mkStore {
  applications : gmap string MembershipApplication;
  events : list ApplicationEvent;
  (* Company.id -> Company.ownerUserId (a nullable column) *)
  companies : gmap string (option string)
}.

(** ** The environment of one call *)

Record Env : Set := mkEnv {
  now : Time;                 (* new Date() / CURRENT_TIMESTAMP *)
  freshId : string;           (* the id the store generates on create *)
  failFind : bool;            (* findUnique rejects *)
  failUpdate : bool;          (* membershipApplication.update rejects *)
  failCreate : bool           (* a create call rejects *)
}.

Definition healthy (env : Env) : Prop :=
  failFind env = false ∧ failUpdate env = false ∧ failCreate env = false.

(** ** Errors and the transaction monad *)

Inductive Error : Set :=
  | ErrNotFound            (* new Error("Not found") *)
  | ErrInvalidTransition   (* new Error("Invalid transition") *)
  | ErrStore.              (* an error raised by the Prisma client *)

Definition message (e : Error) : string :=
  match e with
  | ErrNotFound => "Not found"
  | ErrInvalidTransition => "Invalid transition"
  | ErrStore => "PrismaClientError"
  end.

(** A database computation: it returns a value or throws, and in both
    cases leaves the store as its writes made it. *)
Definition Tx (A : Type) : Type := Store → (Error + A) * Store.

Definition ret {A : Type} (a : A) : Tx A := λ s, (inr a, s).

Definition throw {A : Type} (e : Error) : Tx A := λ s, (inl e, s).

Definition bind {A B : Type} (m : Tx A) (k : A → Tx B) : Tx B :=
  λ s, match m s with
       | (inl e, s') => (inl e, s')
       | (inr a, s') => k a s'
       end.

#[global] Instance Tx_ret : MRet Tx := @ret.
#[global] Instance Tx_bind : MBind Tx := λ A B k m, bind m k.

(** [prisma.$transaction(async (tx) => ...)]: commit when the callback
    resolves, roll back to the store at entry when it rejects. *)
Definition prisma_transaction {A : Type} (body : Tx A) : Tx A :=
  λ s, match body s with
       | (inl e, _) => (inl e, s)
       | (inr a, s') => (inr a, s')
       end.

Definition findUnique (env : Env) (appId : string)
  : Tx (option MembershipApplication) :=
  λ s, if failFind env then (inl ErrStore, s)
       else (inr (applications s !! appId), s).

(** [update({ where: { id }, data })]: [data] overwrites the columns it
    names on the row as it is stored now; a missing row rejects. *)
Definition update (env : Env) (appId : string)
    (data : MembershipApplication → MembershipApplication)
  : Tx MembershipApplication :=
  λ s, if failUpdate env then (inl ErrStore, s)
       else match applications s !! appId with
            | None => (inl ErrStore, s)
            | Some row =>
                let ua := data row in
                (inr ua,
                 {| applications := <[appId := ua]> (applications s);
                    events := events s;
                    companies := companies s |})
            end.

Definition createEvent (env : Env) (ev : ApplicationEvent) : Tx () :=
  λ s, if failCreate env then (inl ErrStore, s)
       else (inr (),
             {| applications := applications s;
                events := events s ++ [ev];
                companies := companies s |}).

Definition createApplication (env : Env)
    (companyId' submittedById' regionId' : string) (form' : Json)
  : Tx MembershipApplication :=
  λ s, if failCreate env then (inl ErrStore, s)
       else match companies s !! companyId', applications s !! freshId env with
            | Some _, None =>
                (* the columns the caller does not give take the schema's
                   defaults: NULL, and CURRENT_TIMESTAMP for createdAt *)
                let app := {| id := freshId env;
                              companyId := companyId';
                              submittedById := submittedById';
                              regionId := regionId';
                              state := DRAFT;
                              reasonRejected := None;
                              form := form';
                              submittedAt := None;
                              decidedAt := None;
                              createdAt := now env |} in
                (inr app,
                 {| applications := <[freshId env := app]> (applications s);
                    events := events s;
                    companies := companies s |})
            | _, _ => (inl ErrStore, s)   (* foreign or primary key violated *)
            end.

(** ** routes.ts: the [transition] helper *)

Definition nextState (action : Transition) : AppState :=
  match action with
  | submit => SUBMITTED
  | request_info => REQUESTED_CHANGES
  | region_approve => NATIONAL_REVIEW
  | national_approve => APPROVED
  | reject => REJECTED
  end.

(** The [data] object of the update inside [transition]: three columns,
    computed from the row [app] that was read and from the call. *)
Definition transitionUpdate (env : Env) (app : MembershipApplication)
    (action : Transition) (data : TransitionData)
    (row : MembershipApplication) : MembershipApplication :=
  {| id := id row;
     companyId := companyId row;
     submittedById := submittedById row;
     regionId := regionId row;
     state := nextState action;
     reasonRejected :=
       if decide (action = reject)
       then Some (default "Not specified"%string (data_reasonRejected data))
       else reasonRejected app;
     form := form row;
     submittedAt := submittedAt row;
     decidedAt :=
       if includes [national_approve; reject] action
       then Some (now env)
       else decidedAt app;
     createdAt := createdAt row |}.

Definition transition (env : Env) (appId actorId' : string)
    (action' : Transition) (data : TransitionData)
  : Tx MembershipApplication :=
  prisma_transaction (
    found ← findUnique env appId;
    match found with
    | None => throw ErrNotFound
    | Some app =>
        if negb (can (state app) action') then throw ErrInvalidTransition
        else
          ua ← update env appId (transitionUpdate env app action' data);
          createEvent env {| applicationId := appId;
                             action := action';
                             actorId := actorId';
                             event_at := now env;
                             meta := data |};;
          mret ua
    end).

(** ** Responses *)

Inductive Body : Set :=
  | JsonApplication (app : MembershipApplication)     (* res.json(app) *)
  | JsonMessage (m : string)                          (* { message } *)
  | JsonApi (success : bool) (m : string)             (* http.ts ApiResponse *)
            (data : option MembershipApplication).

Record Response : Set := mkResponse { status : Z; body : Body }.

(** What a handler does with a request: it sends a response, passes an
    error to [next], or (an async handler without [try]) rejects. *)
Inductive Outcome : Set :=
  | Sent (r : Response)
  | NextError (e : Error)
  | Unhandled (e : Error).

Definition sentStatus (o : Outcome) : option Z :=
  match o with Sent r => Some (status r) | _ => None end.

Definition errorResponse (m : string) (statusCode : Z) : Response :=
  {| status := statusCode; body := JsonApi false m None |}.

Definition successResponse (data : MembershipApplication) (m : string)
    (statusCode : Z) : Response :=
  {| status := statusCode; body := JsonApi true m (Some data) |}.

(** ** Middleware *)

(** [requireRole] of common/middleware/auth, the one routes.ts imports:
    [inl] is the response it sends, [inr] the user [next()] runs with. *)
Definition requireRole (allowedRoles : list Role)
    (user : option AuthenticatedUser) : Response + AuthenticatedUser :=
  match user with
  | None => inl (errorResponse "Authentication required" 401)
  | Some u =>
      if negb (includes allowedRoles (role u))
      then inl (errorResponse "Insufficient permissions" 403)
      else inr u
  end.

(** [requireRole] of common/middleware/rbac.ts. *)
Definition rbac_requireRole (roles : list Role)
    (user : option AuthenticatedUser) : Response + AuthenticatedUser :=
  match user with
  | None => inl {| status := 401; body := JsonMessage "Unauthorized" |}
  | Some u =>
      if negb (includes roles (role u))
      then inl {| status := 403; body := JsonMessage "Forbidden" |}
      else inr u
  end.

(** ** routes.ts: the handlers *)

(** Each handler is modelled with the middleware its route lists.  [user]
    is [req.user] as the handler finds it: [authenticateToken] fills it in
    on the routes that list it (POST / and GET /); the other routes, like
    rbac.ts, assume that an earlier middleware did, and answer 401
    otherwise. *)
Definition Handler : Type := Store → Outcome * Store.

(** [res.json(v)] answers 200. *)
Definition json (app : MembershipApplication) : Response :=
  {| status := 200; body := JsonApplication app |}.

Definition statusMessage (code : Z) (m : string) : Response :=
  {| status := code; body := JsonMessage m |}.

(** POST / *)
Definition createRoute (env : Env) (user : option AuthenticatedUser)
    (companyId' regionId' : string) (form' : Json) : Handler :=
  λ s, match requireRole [COMPANY_REP; ADMIN] user with
       | inl r => (Sent r, s)
       | inr u =>
           match createApplication env companyId' (user_id u) regionId' form' s with
           | (inr app, s') =>
               (Sent (successResponse app
                        "Application draft created successfully" 201), s')
           | (inl e, s') => (NextError e, s')
           end
       end.

(** POST /:id/submit *)
Definition submitUpdate (env : Env) (row : MembershipApplication)
  : MembershipApplication :=
  {| id := id row;
     companyId := companyId row;
     submittedById := submittedById row;
     regionId := regionId row;
     state := SUBMITTED;
     reasonRejected := reasonRejected row;
     form := form row;
     submittedAt := Some (now env);
     decidedAt := decidedAt row;
     createdAt := createdAt row |}.

Definition submitRoute (env : Env) (user : option AuthenticatedUser)
    (paramsId : string) : Handler :=
  λ s, match requireRole [COMPANY_REP; ADMIN] user with
       | inl r => (Sent r, s)
       | inr u =>
           match findUnique env paramsId s with
           | (inl e, s1) => (Unhandled e, s1)
           | (inr None, s1) => (Sent (statusMessage 404 "Not found"), s1)
           | (inr (Some app), s1) =>
               if negb (can (state app) submit)
               then (Sent (statusMessage 409 "Invalid transition"), s1)
               else
                 match prisma_transaction (
                         ua ← update env (id app) (submitUpdate env);
                         createEvent env {| applicationId := id ua;
                                            action := submit;
                                            actorId := user_id u;
                                            event_at := now env;
                                            meta := emptyData |};;
                         mret ua) s1 with
                 | (inl e, s2) => (Unhandled e, s2)
                 | (inr updated, s2) => (Sent (json updated), s2)
                 end
           end
       end.

(** GET /:id *)
Definition getRoute (env : Env) (user : option AuthenticatedUser)
    (paramsId : string) : Handler :=
  λ s, match requireRole [ADMIN; NATIONAL_SECRETARIAT;
                          REGIONAL_SECRETARIAT; COMPANY_REP] user with
       | inl r => (Sent r, s)
       | inr u =>
           match findUnique env paramsId s with
           | (inl e, s1) => (Unhandled e, s1)
           | (inr None, s1) => (Sent (statusMessage 404 "Not found"), s1)
           | (inr (Some app), s1) =>
               (* company.findFirst({ id: app.companyId, ownerUserId }) *)
               let owns := bool_decide
                 (companies s1 !! companyId app = Some (Some (user_id u))) in
               if bool_decide (role u = COMPANY_REP) && negb owns
               then (Sent (statusMessage 403 "Forbidden"), s1)
               else (Sent (json app), s1)
           end
       end.

(** The [try { res.json(await transition(...)) } catch (e) { 409 }] block
    the four handlers below share. *)
Definition tryTransition (t : Tx MembershipApplication) : Handler :=
  λ s, match t s with
       | (inr ua, s') => (Sent (json ua), s')
       | (inl e, s') => (Sent (statusMessage 409 (message e)), s')
       end.

(** POST /:id/request-info *)
Definition requestInfoRoute (env : Env) (user : option AuthenticatedUser)
    (paramsId : string) (bodyNote : option string) : Handler :=
  λ s, match requireRole [REGIONAL_SECRETARIAT; NATIONAL_SECRETARIAT; ADMIN]
               user with
       | inl r => (Sent r, s)
       | inr u =>
           tryTransition
             (transition env paramsId (user_id u) request_info
                {| note := bodyNote; data_reasonRejected := None |}) s
       end.

(** POST /:id/region-approve *)
Definition regionApproveRoute (env : Env) (user : option AuthenticatedUser)
    (paramsId : string) : Handler :=
  λ s, match requireRole [REGIONAL_SECRETARIAT; ADMIN] user with
       | inl r => (Sent r, s)
       | inr u =>
           tryTransition
             (transition env paramsId (user_id u) region_approve emptyData) s
       end.

(** POST /:id/national-approve *)
Definition nationalApproveRoute (env : Env) (user : option AuthenticatedUser)
    (paramsId : string) : Handler :=
  λ s, match requireRole [NATIONAL_SECRETARIAT; ADMIN] user with
       | inl r => (Sent r, s)
       | inr u =>
           tryTransition
             (transition env paramsId (user_id u) national_approve emptyData) s
       end.

(** POST /:id/reject *)
Definition rejectRoute (env : Env) (user : option AuthenticatedUser)
    (paramsId : string) (bodyReasonRejected : option string) : Handler :=
  λ s, match requireRole [REGIONAL_SECRETARIAT; NATIONAL_SECRETARIAT; ADMIN]
               user with
       | inl r => (Sent r, s)
       | inr u =>
           tryTransition
             (transition env paramsId (user_id u) reject
                {| note := None;
                   data_reasonRejected := bodyReasonRejected |}) s
       end.

(** ** The requests that write to the application tables *)

Inductive Request : Set :=
  | PostCreate (companyId' regionId' : string) (form' : Json)
  | PostSubmit (paramsId : string)
  | PostRequestInfo (paramsId : string) (bodyNote : option string)
  | PostRegionApprove (paramsId : string)
  | PostNationalApprove (paramsId : string)
  | PostReject (paramsId : string) (bodyReasonRejected : option string).

Definition handle (env : Env) (user : option AuthenticatedUser)
    (req : Request) : Handler :=
  match req with
  | PostCreate c r f => createRoute env user c r f
  | PostSubmit i => submitRoute env user i
  | PostRequestInfo i n => requestInfoRoute env user i n
  | PostRegionApprove i => regionApproveRoute env user i
  | PostNationalApprove i => nationalApproveRoute env user i
  | PostReject i r => rejectRoute env user i r
  end.

(** The endpoint the HTTP layer maps each action to, and the roles its
    [requireRole] lists. *)
Definition endpoint (action' : Transition) (paramsId : string)
    (data : TransitionData) : Request :=
  match action' with
  | submit => PostSubmit paramsId
  | request_info => PostRequestInfo paramsId (note data)
  | region_approve => PostRegionApprove paramsId
  | national_approve => PostNationalApprove paramsId
  | reject => PostReject paramsId (data_reasonRejected data)
  end.

Definition endpointRoles (action' : Transition) : list Role :=
  match action' with
  | submit => [COMPANY_REP; ADMIN]
  | request_info => [REGIONAL_SECRETARIAT; NATIONAL_SECRETARIAT; ADMIN]
  | region_approve => [REGIONAL_SECRETARIAT; ADMIN]
  | national_approve => [NATIONAL_SECRETARIAT; ADMIN]
  | reject => [REGIONAL_SECRETARIAT; NATIONAL_SECRETARIAT; ADMIN]
  end.

(** The stores reached from empty application tables by calls served one
    after the other (for a submit handler overtaken between its read and
    its transaction, see [attainable] below). *)
Inductive reachable : Store → Prop :=
  | reachable_init (cs : gmap string (option string)) :
      reachable {| applications := ∅; events := []; companies := cs |}
  | reachable_step (s : Store) (env : Env)
        (user : option AuthenticatedUser) (req : Request) :
      reachable s → reachable (handle env user req s).2.

(** A sequence of calls, one after the other. *)
Fixpoint run (calls : list (Env * option AuthenticatedUser * Request))
    (s : Store) : Store :=
  match calls with
  | [] => s
  | (env, user, req) :: rest => run rest (handle env user req s).2
  end.

(** ** The Transition Table as the specification words it *)

(** The table of legal (state, action) pairs with the resulting state of
    each; [None] marks an illegal pair. *)
Definition spec_table (S : AppState) (A : Transition) : option AppState :=
  match S, A with
  | DRAFT, submit => Some SUBMITTED
  | SUBMITTED, request_info => Some REQUESTED_CHANGES
  | SUBMITTED, region_approve => Some NATIONAL_REVIEW
  | SUBMITTED, reject => Some REJECTED
  | REGION_REVIEW, request_info => Some REQUESTED_CHANGES
  | REGION_REVIEW, region_approve => Some NATIONAL_REVIEW
  | REGION_REVIEW, reject => Some REJECTED
  | REQUESTED_CHANGES, submit => Some SUBMITTED
  | NATIONAL_REVIEW, national_approve => Some APPROVED
  | NATIONAL_REVIEW, reject => Some REJECTED
  | _, _ => None
  end.

(** ** Vocabulary of the statements *)

(** The table is keyed by its primary key. *)
Definition keyed (s : Store) : Prop :=
  ∀ i app, applications s !! i = Some app → id app = i.

(** The call answered 200. *)
Definition succeeded (o : Outcome) : bool :=
  match o with
  | Sent r => bool_decide (status r = 200)
  | _ => false
  end.

(** The row a successful call for [A] writes over [app]. *)
Definition written (env : Env) (A : Transition) (data : TransitionData)
    (app : MembershipApplication) : MembershipApplication :=
  match A with
  | submit => submitUpdate env app
  | _ => transitionUpdate env app A data app
  end.

(** The event a successful call for [A] appends. *)
Definition recorded (env : Env) (A : Transition) (data : TransitionData)
    (i actor : string) : ApplicationEvent :=
  {| applicationId := i;
     action := A;
     actorId := actor;
     event_at := now env;
     meta := match A with submit => emptyData | _ => data end |}.

(** The data object each endpoint hands to [transition]. *)
Definition endpointData (A : Transition) (data : TransitionData)
  : TransitionData :=
  match A with
  | submit | region_approve | national_approve => emptyData
  | request_info => {| note := note data; data_reasonRejected := None |}
  | reject => {| note := None;
                 data_reasonRejected := data_reasonRejected data |}
  end.

(** How each endpoint answers an absent row and a rejected store call. *)
Definition onMissing (A : Transition) : Outcome :=
  match A with
  | submit => Sent (statusMessage 404 "Not found")
  | _ => Sent (statusMessage 409 "Not found")
  end.

Definition onStoreError (A : Transition) : Outcome :=
  match A with
  | submit => Unhandled ErrStore
  | _ => Sent (statusMessage 409 (message ErrStore))
  end.

(** One call of a transition endpoint, case by case. *)
Definition endpointResult (env : Env) (user : option AuthenticatedUser)
    (A : Transition) (i : string) (data : TransitionData) (s : Store)
  : Outcome * Store :=
  match requireRole (endpointRoles A) user with
  | inl r => (Sent r, s)
  | inr u =>
      if failFind env then (onStoreError A, s)
      else match applications s !! i with
           | None => (onMissing A, s)
           | Some app =>
               if can (state app) A then
                 if failUpdate env || failCreate env
                 then (onStoreError A, s)
                 else
                   let ua := written env A (endpointData A data) app in
                   (Sent (json ua),
                    {| applications := <[i := ua]> (applications s);
                       events := events s ++
                         [recorded env A (endpointData A data) i (user_id u)];
                       companies := companies s |})
               else (Sent (statusMessage 409 "Invalid transition"), s)
           end
  end.

(** ** The row invariant of reachable stores *)

Definition terminal (S : AppState) : bool :=
  match S with APPROVED | REJECTED => true | _ => false end.

Record consistent (a : MembershipApplication) : Prop := mkConsistent {
  cons_region : state a ≠ REGION_REVIEW;
  cons_decided : decidedAt a = None ↔ terminal (state a) = false;
  cons_reason : reasonRejected a = None ↔ state a ≠ REJECTED;
  cons_submitted : submittedAt a = None ↔ state a = DRAFT
}.

(** ** Concrete stores used to exercise the statements *)

Definition env_at (t : Time) (fresh : string) : Env :=
  {| now := t; freshId := fresh;
     failFind := false; failUpdate := false; failCreate := false |}.

Definition person (uid : string) (r : Role) (region : option string)
  : AuthenticatedUser :=
  {| user_id := uid; email := uid +:+ "@abcecg.org"; username := uid;
     role := r; user_regionId := region |}.

Definition rep1 : AuthenticatedUser := person "rep1" COMPANY_REP None.
Definition rep2 : AuthenticatedUser := person "rep2" COMPANY_REP None.
Definition admin : AuthenticatedUser := person "admin" ADMIN None.
Definition national : AuthenticatedUser :=
  person "national" NATIONAL_SECRETARIAT None.
Definition regionalGA : AuthenticatedUser :=
  person "regional.ga" REGIONAL_SECRETARIAT (Some "GA").
Definition regionalAS : AuthenticatedUser :=
  person "regional.as" REGIONAL_SECRETARIAT (Some "AS").

(** A regional secretary whose user row has no region. *)
Definition regionalNone : AuthenticatedUser :=
  person "regional.none" REGIONAL_SECRETARIAT None.

(** Company [c1] is owned by [rep1]; no application yet. *)
Definition store0 : Store :=
  {| applications := ∅; events := [];
     companies := {[ "c1" := Some "rep1" ]} |}.

(** [rep1] has created the draft [a1] for region GA. *)
Definition storeDraft : Store :=
  run [(env_at 1 "a1", Some rep1, PostCreate "c1" "GA" "{}")] store0.

(** ... and has submitted it. *)
Definition storeSubmitted : Store :=
  run [(env_at 2 "", Some rep1, PostSubmit "a1")] storeDraft.

(** The regional secretary of GA has asked for changes to [a1]. *)
Definition storeChanges : Store :=
  run [(env_at 3 "", Some regionalGA,
        PostRequestInfo "a1" (Some "add the tax certificate"))] storeSubmitted.

(** The national secretary has rejected [a1] with an empty reason. *)
Definition storeRejected : Store :=
  run [(env_at 3 "", Some national, PostReject "a1" (Some ""))] storeSubmitted.

(** Regional approval, national approval, and a late attempt to reject. *)
Definition approvalCalls : list (Env * option AuthenticatedUser * Request) :=
  [(env_at 3 "", Some regionalGA, PostRegionApprove "a1");
   (env_at 4 "", Some national, PostNationalApprove "a1");
   (env_at 5 "", Some national, PostReject "a1" (Some "late"))].

(** A second draft, [a2] for region AS, next to the submitted [a1]. *)
Definition storeTwo : Store :=
  run [(env_at 3 "a2", Some rep1, PostCreate "c1" "AS" "{}")] storeSubmitted.

(** ** Two calls, and the two awaits of the submit handler *)

(** Two calls served one after the other. *)
Definition serial (c1 c2 : Env * option AuthenticatedUser * Request)
    (s : Store) : Outcome * Outcome * Store :=
  let '(env1, user1, req1) := c1 in
  let '(env2, user2, req2) := c2 in
  let r1 := handle env1 user1 req1 s in
  let r2 := handle env2 user2 req2 r1.2 in
  (r1.1, r2.1, r2.2).

(** The submit handler up to its second [await]: the role check, the read
    and the two guards.  [inl] is the answer already given, [inr] the user
    and the row the handler goes on with. *)
Definition submitRead (env : Env) (user : option AuthenticatedUser)
    (paramsId : string) (s : Store)
  : Outcome + AuthenticatedUser * MembershipApplication :=
  match requireRole [COMPANY_REP; ADMIN] user with
  | inl r => inl (Sent r)
  | inr u =>
      match findUnique env paramsId s with
      | (inl e, _) => inl (Unhandled e)
      | (inr None, _) => inl (Sent (statusMessage 404 "Not found"))
      | (inr (Some app), _) =>
          if negb (can (state app) submit)
          then inl (Sent (statusMessage 409 "Invalid transition"))
          else inr (u, app)
      end
  end.

(** The rest of the submit handler: the transaction and the answer. *)
Definition submitWrite (env : Env) (u : AuthenticatedUser)
    (app : MembershipApplication) : Handler :=
  λ s, match prisma_transaction (
               ua ← update env (id app) (submitUpdate env);
               createEvent env {| applicationId := id ua;
                                  action := submit;
                                  actorId := user_id u;
                                  event_at := now env;
                                  meta := emptyData |};;
               mret ua) s with
       | (inl e, s') => (Unhandled e, s')
       | (inr updated, s') => (Sent (json updated), s')
       end.

(** ** Counting the writes of the decision timestamp *)

Definition decidedAt_of (s : Store) (i : string) : option Time :=
  applications s !! i ≫= decidedAt.

(** The number of calls of a sequence after which the decision timestamp
    of application [i] differs from what it was before the call. *)
Fixpoint decidedAt_writes (i : string)
    (calls : list (Env * option AuthenticatedUser * Request)) (s : Store)
  : nat :=
  match calls with
  | [] => 0%nat
  | (env, user, req) :: rest =>
      let s' := (handle env user req s).2 in
      ((if bool_decide (decidedAt_of s' i = decidedAt_of s i)
        then 0 else 1) + decidedAt_writes i rest s')%nat
  end.

(** ** Statements that do not hold of the code, as they are worded *)

(** The submission timestamp, once set, survives every later call. *)
Definition submittedAt_written_once : Prop :=
  ∀ s env user req i app app',
    reachable s →
    applications s !! i = Some app → is_Some (submittedAt app) →
    applications (handle env user req s).2 !! i = Some app' →
    submittedAt app' = submittedAt app.

(** The rejection reason is a non-empty text exactly in state REJECTED. *)
Definition reason_nonempty_iff_rejected : Prop :=
  ∀ s i app,
    reachable s → applications s !! i = Some app →
    ((∃ r, reasonRejected app = Some r ∧ r ≠ "") ↔ state app = REJECTED).


(** ** routes.ts: the handlers that only read *)

(** What a reading handler does: [res.json(data)] (status 200, or the
    [successResponse] envelope around [data]), another response, an error
    passed to [next], or a rejection nobody catches. *)
Inductive Reply (A : Type) : Type :=
  | Json200 (data : A)
  | Answered (r : Response)
  | ToNext (e : Error)
  | Rejected (e : Error).
Arguments Json200 {A} data.
Arguments Answered {A} r.
Arguments ToNext {A} e.
Arguments Rejected {A} e.

(** JavaScript truthiness of a value that is a string, [undefined] or
    [null]. *)
Definition truthy (v : option string) : bool :=
  match v with
  | Some x => negb (String.eqb x "")
  | None => false
  end.

(** [orderBy: { at: "asc" }] and [orderBy: { createdAt: "desc" }].  The
    store leaves the order of rows with equal keys open; the sort used
    here fixes one, and no statement below depends on which. *)
Definition at_asc (e1 e2 : ApplicationEvent) : Prop :=
  event_at e1 ≤ event_at e2.

Definition createdAt_desc (a1 a2 : MembershipApplication) : Prop :=
  createdAt a2 ≤ createdAt a1.

#[global] Instance at_asc_dec e1 e2 : Decision (at_asc e1 e2).
Proof. unfold at_asc. apply _. Defined.
#[global] Instance createdAt_desc_dec a1 a2 : Decision (createdAt_desc a1 a2).
Proof. unfold createdAt_desc. apply _. Defined.

(** [applicationEvent.findMany({ where: { applicationId }, orderBy })];
    a read, so [failFind] is the fault that makes it reject. *)
Definition findManyEvents (env : Env) (appId : string)
  : Tx (list ApplicationEvent) :=
  λ s, if failFind env then (inl ErrStore, s)
       else (inr (merge_sort at_asc
                    (filter (λ ev, applicationId ev = appId) (events s))), s).

(** GET /:id/events *)
Definition eventsRoute (env : Env) (user : option AuthenticatedUser)
    (paramsId : string) (s : Store)
  : Reply (list ApplicationEvent) * Store :=
  match requireRole [ADMIN; NATIONAL_SECRETARIAT; REGIONAL_SECRETARIAT]
          user with
  | inl r => (Answered r, s)
  | inr u =>
      match findManyEvents env paramsId s with
      | (inl e, s1) => (Rejected e, s1)
      | (inr evs, s1) => (Json200 evs, s1)
      end
  end.

(** The [where] object of the listing: an absent ([undefined]) field does
    not filter. *)
Record ApplicationWhere : Set := mkWhere {
  where_state : option AppState;
  where_regionId : option string
}.

Definition matchesWhere (w : ApplicationWhere) (a : MembershipApplication)
  : Prop :=
  match where_state w with Some st => state a = st | None => True end ∧
  match where_regionId w with Some r => regionId a = r | None => True end.

#[global] Instance matchesWhere_dec w a : Decision (matchesWhere w a).
Proof.
  unfold matchesWhere.
  destruct (where_state w), (where_regionId w); apply _.
Defined.

Definition findManyApplications (env : Env) (w : ApplicationWhere)
  : Tx (list MembershipApplication) :=
  λ s, if failFind env then (inl ErrStore, s)
       else (inr (merge_sort createdAt_desc
                    (filter (matchesWhere w)
                       ((map_to_list (applications s)).*2))), s).

(** The values of the AppState enum as the query string spells them. *)
Definition appStateOfString (v : string) : option AppState :=
  if String.eqb v "DRAFT" then Some DRAFT
  else if String.eqb v "SUBMITTED" then Some SUBMITTED
  else if String.eqb v "REGION_REVIEW" then Some REGION_REVIEW
  else if String.eqb v "REQUESTED_CHANGES" then Some REQUESTED_CHANGES
  else if String.eqb v "NATIONAL_REVIEW" then Some NATIONAL_REVIEW
  else if String.eqb v "APPROVED" then Some APPROVED
  else if String.eqb v "REJECTED" then Some REJECTED
  else None.

(** GET /: the handler proper, as it runs once [authenticateToken],
    [requireRole] and [requireRegionScope] have let the request through
    ([requireRegionScope] is imported by routes.ts and defined nowhere in
    the sources).  [queryState] and [queryRegionId] are [req.query.state]
    and [req.query.regionId], each a single string or absent.  A [state]
    that is no value of the enum makes the client reject the query, and the
    [catch] passes that on.  The rows are listed without the company,
    region and submitter that [include] joins to them. *)
Definition listHandler (env : Env) (u : AuthenticatedUser)
    (queryState queryRegionId : option string) (s : Store)
  : Reply (list MembershipApplication) * Store :=
  let whereRegion :=
    if decide (role u = REGIONAL_SECRETARIAT) then user_regionId u
    else if truthy queryRegionId then queryRegionId
    else None in
  let whereState :=
    if truthy queryState then Some (queryState ≫= appStateOfString)
    else None in
  match whereState with
  | Some None => (ToNext ErrStore, s)
  | _ =>
      match findManyApplications env
              {| where_state := mjoin whereState;
                 where_regionId := whereRegion |} s with
      | (inl e, s1) => (ToNext e, s1)
      | (inr apps, s1) => (Json200 apps, s1)
      end
  end.

(** ** common/middleware/auth: the other middleware *)

(** [a || b] on values that are strings or absent. *)
Definition jsOr (a b : option string) : option string :=
  if truthy a then a else b.

(** [requireRegionAccess]: [None] is [next()]. *)
Definition requireRegionAccess (user : option AuthenticatedUser)
    (paramsRegionId bodyRegionId queryRegionId : option string)
  : option Response :=
  match user with
  | None => Some (errorResponse "Authentication required" 401)
  | Some u =>
      if includes [ADMIN; NATIONAL_SECRETARIAT] (role u) then None
      else if decide (role u = REGIONAL_SECRETARIAT) then
        let requestedRegion :=
          jsOr (jsOr paramsRegionId bodyRegionId) queryRegionId in
        if truthy requestedRegion
           && negb (bool_decide (requestedRegion = user_regionId u))
        then Some (errorResponse "Access denied for this region" 403)
        else None
      else None
  end.

(** [requireOwnership(getResourceOwnerId)]: [owner] is what awaiting
    [getResourceOwnerId(req)] gives, a thrown error on the left. *)
Definition requireOwnership (owner : Error + option string)
    (user : option AuthenticatedUser) : option Response :=
  match user with
  | None => Some (errorResponse "Authentication required" 401)
  | Some u =>
      if includes [ADMIN; NATIONAL_SECRETARIAT] (role u) then None
      else match owner with
           | inl _ => Some (errorResponse "Authorization check failed" 500)
           | inr resourceOwnerId =>
               if negb (truthy resourceOwnerId)
                  || negb (bool_decide (resourceOwnerId = Some (user_id u)))
               then Some (errorResponse "Access denied" 403)
               else None
           end
  end.

(** The columns [authenticateToken] selects from the User table. *)
Record UserRow : Set := mkUserRow {
  row_id : string;
  row_email : string;
  row_username : string;
  row_role : Role;
  row_regionId : option string;
  row_isActive : bool
}.

(** [authHeader && authHeader.startsWith("Bearer ")
      ? authHeader.substring(7) : null] *)
Definition bearerToken (authHeader : option string) : option string :=
  match authHeader with
  | Some h =>
      if truthy (Some h) && String.prefix "Bearer " h
      then Some (String.substring 7 (String.length h - 7) h)
      else None
  | None => None
  end.

Section AuthenticateToken.
(** [jwt.verify(token, env.JWT_SECRET)] and
    [prisma.user.findUnique({ where: { id: decoded.id }, select })] are
    given; each returns, or throws an error of which only the name
    matters. *)
Context {Decoded : Type}.
Variable verify : string → string + Decoded.
Variable findUser : Decoded → string + option UserRow.

Definition authenticationFailure (errorName : string) : Response :=
  if String.eqb errorName "JsonWebTokenError"
  then errorResponse "Invalid token" 401
  else if String.eqb errorName "TokenExpiredError"
  then errorResponse "Token expired" 401
  else errorResponse "Authentication failed" 401.

(** [inl] is the response sent, [inr] the [req.user] that [next()]
    runs with. *)
Definition authenticateToken (authorization : option string)
  : Response + AuthenticatedUser :=
  let token := bearerToken authorization in
  if negb (truthy token) then inl (errorResponse "Access token required" 401)
  else match verify (default "" token) with
       | inl name => inl (authenticationFailure name)
       | inr decoded =>
           match findUser decoded with
           | inl name => inl (authenticationFailure name)
           | inr None => inl (errorResponse "User not found" 401)
           | inr (Some user) =>
               if negb (row_isActive user)
               then inl (errorResponse "Account is deactivated" 401)
               else inr {| user_id := row_id user;
                           email := row_email user;
                           username := row_username user;
                           role := row_role user;
                           user_regionId :=
                             jsOr (row_regionId user) None |}
           end
       end.
End AuthenticateToken.

(** ** The event log read as a history *)

(** The actions recorded for application [i], oldest first. *)
Definition history (s : Store) (i : string) : list Transition :=
  action <$> filter (λ ev, applicationId ev = i) (events s).

(** Following a list of actions through fsm.ts from a state: [None] as
    soon as one is not allowed where it is attempted. *)
Fixpoint replay (S : AppState) (actions : list Transition)
  : option AppState :=
  match actions with
  | [] => Some S
  | A :: rest => if can S A then replay (nextState A) rest else None
  end.

(** The number of calls of a sequence that are answered 200. *)
Fixpoint successes
    (calls : list (Env * option AuthenticatedUser * Request)) (s : Store)
  : nat :=
  match calls with
  | [] => 0%nat
  | (env, user, req) :: rest =>
      let r := handle env user req s in
      ((if succeeded r.1 then 1 else 0) + successes rest r.2)%nat
  end.

(** The roles the [requireRole] of each route lists. *)
Definition requestRoles (req : Request) : list Role :=
  match req with
  | PostCreate _ _ _ => [COMPANY_REP; ADMIN]
  | PostSubmit _ => [COMPANY_REP; ADMIN]
  | PostRequestInfo _ _ =>
      [REGIONAL_SECRETARIAT; NATIONAL_SECRETARIAT; ADMIN]
  | PostRegionApprove _ => [REGIONAL_SECRETARIAT; ADMIN]
  | PostNationalApprove _ => [NATIONAL_SECRETARIAT; ADMIN]
  | PostReject _ _ => [REGIONAL_SECRETARIAT; NATIONAL_SECRETARIAT; ADMIN]
  end.

(** ** Clocks that do not run backwards *)

(** The calls of a sequence read a clock that never goes back, starting
    no earlier than [T]. *)
Fixpoint clock_monotone (T : Time)
    (calls : list (Env * option AuthenticatedUser * Request)) : Prop :=
  match calls with
  | [] => True
  | (env, _, _) :: rest => T ≤ now env ∧ clock_monotone (now env) rest
  end.

(** The three timestamps of a row follow each other. *)
Definition chronological (a : MembershipApplication) : Prop :=
  (∀ t, submittedAt a = Some t → createdAt a ≤ t) ∧
  (∀ d, decidedAt a = Some d → createdAt a ≤ d) ∧
  (∀ t d, submittedAt a = Some t → decidedAt a = Some d → t ≤ d).

(** No timestamp of the row is later than [T]. *)
Definition stamped_by (T : Time) (a : MembershipApplication) : Prop :=
  createdAt a ≤ T ∧
  (∀ t, submittedAt a = Some t → t ≤ T) ∧
  (∀ d, decidedAt a = Some d → d ≤ T).

(** Every row of the store is consistent, chronological and stamped no
    later than [T], and the log is in the order of its timestamps, none
    later than [T]. *)
Definition timed (T : Time) (s : Store) : Prop :=
  (∀ i a, applications s !! i = Some a →
          consistent a ∧ chronological a ∧ stamped_by T a) ∧
  Forall (λ ev, event_at ev ≤ T) (events s) ∧
  StronglySorted (λ e1 e2, event_at e1 ≤ event_at e2) (events s).

(** The row POST / stores for a caller [uid]. *)
Definition drafted (env : Env) (c uid g : string) (f : Json)
  : MembershipApplication :=
  {| id := freshId env; companyId := c; submittedById := uid;
     regionId := g; state := DRAFT; reasonRejected := None; form := f;
     submittedAt := None; decidedAt := None; createdAt := now env |}.

(** ** One endpoint call as a decision on one row *)

(** What a transition endpoint decides from the row it finds: its answer
    and, when it goes through, the row and the event it writes. *)
Definition endpointDecision (env : Env) (user : option AuthenticatedUser)
    (A : Transition) (i : string) (data : TransitionData)
    (row : option MembershipApplication)
  : Outcome * option (MembershipApplication * ApplicationEvent) :=
  match requireRole (endpointRoles A) user with
  | inl r => (Sent r, None)
  | inr u =>
      if failFind env then (onStoreError A, None)
      else match row with
           | None => (onMissing A, None)
           | Some app =>
               if can (state app) A then
                 if failUpdate env || failCreate env
                 then (onStoreError A, None)
                 else
                   let ua := written env A (endpointData A data) app in
                   (Sent (json ua),
                    Some (ua, recorded env A (endpointData A data) i
                                (user_id u)))
               else (Sent (statusMessage 409 "Invalid transition"), None)
           end
  end.

Definition commit (i : string)
    (w : option (MembershipApplication * ApplicationEvent)) (s : Store)
  : Store :=
  match w with
  | None => s
  | Some (ua, ev) =>
      {| applications := <[i := ua]> (applications s);
         events := events s ++ [ev];
         companies := companies s |}
  end.

(** ** Handlers in flight *)

(** The four handlers that go through [transition], and POST /, do all
    their work on the store in one call or one transaction.  The submit
    handler does not: it reads and checks, and opens its transaction
    afterwards, so that other calls can be served in between.  A system is
    the store together with the submit handlers that have read and not yet
    written, each holding [req.user] and the row it read. *)
Record System : Type := mkSystem {
  store : Store;
  suspended : list (AuthenticatedUser * MembershipApplication)
}.

Inductive Move : Type :=
  (* a call served from its first line to its answer *)
  | Serve (env : Env) (user : option AuthenticatedUser) (req : Request)
  (* a submit handler runs up to its transaction *)
  | SubmitReads (env : Env) (user : option AuthenticatedUser)
      (paramsId : string)
  (* the [k]-th suspended submit handler runs its transaction *)
  | SubmitWrites (env : Env) (k : nat).

Definition move (m : Move) (sys : System) : System :=
  match m with
  | Serve env user req =>
      {| store := (handle env user req (store sys)).2;
         suspended := suspended sys |}
  | SubmitReads env user paramsId =>
      match submitRead env user paramsId (store sys) with
      | inl _ => sys
      | inr read => {| store := store sys;
                       suspended := suspended sys ++ [read] |}
      end
  | SubmitWrites env k =>
      match suspended sys !! k with
      | None => sys
      | Some (u, app) =>
          {| store := (submitWrite env u app (store sys)).2;
             suspended := delete k (suspended sys) |}
      end
  end.

Fixpoint play (moves : list Move) (sys : System) : System :=
  match moves with
  | [] => sys
  | m :: rest => play rest (move m sys)
  end.

(** No handler in flight. *)
Definition quiet (s : Store) : System := {| store := s; suspended := [] |}.

(** The systems the handlers can produce from empty application tables,
    with the two halves of a submit handler apart or not. *)
Inductive attainable : System → Prop :=
  | attainable_init (cs : gmap string (option string)) :
      attainable (quiet {| applications := ∅; events := [];
                           companies := cs |})
  | attainable_move (sys : System) (m : Move) :
      attainable sys → attainable (move m sys).

(** The moves that write read a clock that never goes back, starting no
    earlier than [T] (the read of a submit handler takes no timestamp). *)
Fixpoint moves_monotone (T : Time) (moves : list Move) : Prop :=
  match moves with
  | [] => True
  | Serve env _ _ :: rest => T ≤ now env ∧ moves_monotone (now env) rest
  | SubmitReads _ _ _ :: rest => moves_monotone T rest
  | SubmitWrites env _ :: rest => T ≤ now env ∧ moves_monotone (now env) rest
  end.


(** A submit of [a1] by [rep1] that reads the draft and is overtaken: a
    second submit, the regional and the national approval are served
    before its transaction runs, and a reject is served after it. *)
Definition overtakenSubmit : list Move :=
  [SubmitReads (env_at 2 "") (Some rep1) "a1";
   Serve (env_at 2 "") (Some rep1) (PostSubmit "a1");
   Serve (env_at 3 "") (Some regionalGA) (PostRegionApprove "a1");
   Serve (env_at 4 "") (Some national) (PostNationalApprove "a1");
   SubmitWrites (env_at 9 "") 0].

Definition rejectAfterwards : list Move :=
  [Serve (env_at 10 "") (Some national) (PostReject "a1" (Some "late"))].

(** The environment a move runs in. *)
Definition moveEnv (m : Move) : Env :=
  match m with
  | Serve env _ _ => env
  | SubmitReads env _ _ => env
  | SubmitWrites env _ => env
  end.

(** The state the log gives an application: that of its last recorded
    action, and DRAFT when nothing is recorded. *)
Definition stateOfLog (s : Store) (i : string) : AppState :=
  from_option nextState DRAFT (last (history s i)).

(** Every row was created no later than it was submitted or decided, no
    timestamp of the store is later than [T], and the log is in the order
    of its timestamps. *)
Definition stamped (T : Time) (s : Store) : Prop :=
  (∀ i a, applications s !! i = Some a →
          stamped_by T a ∧
          (∀ t, submittedAt a = Some t → createdAt a ≤ t) ∧
          (∀ d, decidedAt a = Some d → createdAt a ≤ d)) ∧
  Forall (λ ev, event_at ev ≤ T) (events s) ∧
  StronglySorted at_asc (events s).

(** * Lemmas on the helpers *)

Ltac unfold_tx :=
  unfold prisma_transaction, mbind, mret, Tx_bind, Tx_ret, bind, ret, throw,
    findUnique, update, createEvent in *.

Lemma transition_eq env i actor A data s :
  transition env i actor A data s =
  if failFind env then (inl ErrStore, s)
  else match applications s !! i with
       | None => (inl ErrNotFound, s)
       | Some app =>
           if can (state app) A then
             if failUpdate env || failCreate env then (inl ErrStore, s)
             else
               let ua := transitionUpdate env app A data app in
               (inr ua,
                {| applications := <[i := ua]> (applications s);
                   events := events s ++
                     [{| applicationId := i; action := A; actorId := actor;
                         event_at := now env; meta := data |}];
                   companies := companies s |})
           else (inl ErrInvalidTransition, s)
       end.
Proof.
  unfold transition. unfold_tx.
  destruct (failFind env); [done|].
  destruct (applications s !! i) as [app|] eqn:Hi; [|done].
  destruct (can (state app) A); simpl; [|done].
  destruct (failUpdate env); simpl; [done|].
  rewrite Hi. by destruct (failCreate env).
Qed.

Lemma endpoint_eq env user A i data s :
  keyed s →
  handle env user (endpoint A i data) s = endpointResult env user A i data s.
Proof.
  intros Hk. unfold endpointResult.
  destruct A; simpl; unfold submitRoute, requestInfoRoute, regionApproveRoute,
    nationalApproveRoute, rejectRoute, tryTransition;
    (destruct (requireRole _ user) as [r|u]; [done|]);
    rewrite ?transition_eq.
  - unfold_tx. destruct (failFind env); [done|].
    destruct (applications s !! i) as [app|] eqn:Hi; [|done].
    destruct (can (state app) submit); simpl; [|done].
    rewrite (Hk _ _ Hi), Hi.
    destruct (failUpdate env); simpl; [done|].
    destruct (failCreate env); simpl; [done|].
    unfold recorded. by rewrite (Hk _ _ Hi).
  - destruct (failFind env); [done|].
    destruct (applications s !! i) as [app|]; [|done].
    destruct (can (state app) _); [|done].
    by destruct (failUpdate env || failCreate env).
  - destruct (failFind env); [done|].
    destruct (applications s !! i) as [app|]; [|done].
    destruct (can (state app) _); [|done].
    by destruct (failUpdate env || failCreate env).
  - destruct (failFind env); [done|].
    destruct (applications s !! i) as [app|]; [|done].
    destruct (can (state app) _); [|done].
    by destruct (failUpdate env || failCreate env).
  - destruct (failFind env); [done|].
    destruct (applications s !! i) as [app|]; [|done].
    destruct (can (state app) _); [|done].
    by destruct (failUpdate env || failCreate env).
Qed.

Lemma can_spec_table S A : can S A = true ↔ is_Some (spec_table S A).
Proof.
  destruct S, A; vm_compute; split; intros H;
    first [done | by eexists | by destruct H].
Qed.

Lemma spec_table_next S A S' : spec_table S A = Some S' → nextState A = S'.
Proof. destruct S, A; simpl; congruence. Qed.

Lemma spec_table_can S A S' : spec_table S A = Some S' → can S A = true.
Proof. intros H. apply can_spec_table. by eexists. Qed.

Lemma spec_table_none S A : spec_table S A = None → can S A = false.
Proof.
  intros H. destruct (can S A) eqn:Hc; [|done].
  apply can_spec_table in Hc as [? ?]. congruence.
Qed.

Lemma request_cases req :
  (∃ c r f, req = PostCreate c r f) ∨ (∃ A i data, req = endpoint A i data).
Proof.
  destruct req as [c r f|i|i n|i|i|i r].
  - left. by exists c, r, f.
  - right. by exists submit, i, emptyData.
  - right. by exists request_info, i, {| note := n; data_reasonRejected := None |}.
  - right. by exists region_approve, i, emptyData.
  - right. by exists national_approve, i, emptyData.
  - right. by exists reject, i, {| note := None; data_reasonRejected := r |}.
Qed.

Lemma written_id env A data app : id (written env A data app) = id app.
Proof. by destruct A. Qed.

Lemma written_state env A data app :
  state (written env A data app) = nextState A.
Proof. by destruct A. Qed.

(** What one call of an endpoint leaves behind: nothing, or one row
    rewritten and one event appended. *)
Lemma endpoint_effect env user A i data s :
  keyed s →
  let r := handle env user (endpoint A i data) s in
  (succeeded r.1 = false ∧ r.2 = s) ∨
  (∃ u app,
      user = Some u ∧ includes (endpointRoles A) (role u) = true ∧
      applications s !! i = Some app ∧ can (state app) A = true ∧
      r.1 = Sent (json (written env A (endpointData A data) app)) ∧
      r.2 = {| applications :=
                 <[i := written env A (endpointData A data) app]> (applications s);
               events := events s ++
                 [recorded env A (endpointData A data) i (user_id u)];
               companies := companies s |}).
Proof.
  intros Hk r. subst r. rewrite endpoint_eq by done. unfold endpointResult.
  unfold requireRole. destruct user as [u|].
  2:{ left. by destruct A. }
  destruct (includes (endpointRoles A) (role u)) eqn:Hrole; simpl.
  2:{ left. by destruct A. }
  destruct (failFind env). { left. by destruct A. }
  destruct (applications s !! i) as [app|] eqn:Hi.
  2:{ left. by destruct A. }
  destruct (can (state app) A) eqn:Hcan; [|by left].
  destruct (failUpdate env || failCreate env). { left. by destruct A. }
  right. by exists u, app.
Qed.

(** What a creation leaves behind: nothing, or one new row in DRAFT with
    the nullable columns empty. *)
Lemma create_effect env user c r f s :
  let res := handle env user (PostCreate c r f) s in
  res.2 = s ∨
  (∃ app,
      applications s !! freshId env = None ∧ id app = freshId env ∧
      state app = DRAFT ∧ reasonRejected app = None ∧
      submittedAt app = None ∧ decidedAt app = None ∧
      res.2 = {| applications := <[freshId env := app]> (applications s);
                 events := events s;
                 companies := companies s |}).
Proof.
  simpl. unfold createRoute, createApplication.
  destruct (requireRole _ user) as [?|u]; [by left|].
  destruct (failCreate env); [by left|].
  destruct (companies s !! c); [|by left].
  destruct (applications s !! freshId env) eqn:Hfresh; [by left|].
  right. eexists. repeat split; try done.
Qed.

Lemma handle_keyed env user req s : keyed s → keyed (handle env user req s).2.
Proof.
  intros Hk. destruct (request_cases req) as [(c & r & f & ->)|(A & i & data & ->)].
  - destruct (create_effect env user c r f s) as [->|(app & _ & Hid & _ & _ & _ & _ & ->)];
      [done|].
    intros j a. simpl. rewrite lookup_insert. case_decide; [|by apply Hk].
    intros [= <-]. congruence.
  - destruct (endpoint_effect env user A i data s Hk)
      as [[_ ->]|(u & app & _ & _ & Hi & _ & _ & ->)]; [done|].
    intros j a. simpl. rewrite lookup_insert. case_decide; [|by apply Hk].
    intros [= <-]. rewrite written_id. subst. by apply Hk.
Qed.

Lemma reachable_keyed s : reachable s → keyed s.
Proof.
  induction 1 as [cs|s env user req _ IH].
  - intros i app. simpl. by rewrite lookup_empty.
  - by apply handle_keyed.
Qed.

Lemma run_reachable calls s : reachable s → reachable (run calls s).
Proof.
  revert s. induction calls as [|[[env user] req] rest IH]; intros s Hs; [done|].
  simpl. apply IH. by constructor.
Qed.

Lemma run_keyed calls s : keyed s → keyed (run calls s).
Proof.
  revert s. induction calls as [|[[env user] req] rest IH]; intros s Hs; [done|].
  simpl. apply IH. by apply handle_keyed.
Qed.

Lemma written_consistent env A data app :
  consistent app → can (state app) A = true →
  consistent (written env A data app).
Proof.
  intros [Hr Hd Hj Hs] Hcan.
  destruct app as [i c u r S rr f sa da ca]; simpl in *.
  destruct S, A; try discriminate Hcan;
    split; simpl; try done; intuition congruence.
Qed.

Lemma handle_consistent env user req s :
  keyed s →
  (∀ i a, applications s !! i = Some a → consistent a) →
  ∀ i a, applications (handle env user req s).2 !! i = Some a → consistent a.
Proof.
  intros Hk Hinv.
  destruct (request_cases req) as [(c & r & f & ->)|(A & j & data & ->)].
  - destruct (create_effect env user c r f s)
      as [->|(app & _ & _ & HS & HR & HSa & HD & ->)]; [done|].
    intros i a. simpl. rewrite lookup_insert. case_decide; [|by apply Hinv].
    intros [= <-]. split; rewrite ?HS, ?HR, ?HSa, ?HD; done.
  - destruct (endpoint_effect env user A j data s Hk)
      as [[_ ->]|(u & app & _ & _ & Hj & Hcan & _ & ->)]; [done|].
    intros i a. simpl. rewrite lookup_insert. case_decide; [|by apply Hinv].
    intros [= <-]. apply written_consistent; [by eapply Hinv|done].
Qed.

Lemma reachable_consistent s :
  reachable s → ∀ i a, applications s !! i = Some a → consistent a.
Proof.
  induction 1 as [cs|s env user req Hs IH].
  - intros i a. simpl. by rewrite lookup_empty.
  - apply handle_consistent; [by apply reachable_keyed|done].
Qed.

(** ** The concrete stores are reachable *)

Lemma store0_reachable : reachable store0.
Proof. constructor. Qed.

Lemma storeDraft_reachable : reachable storeDraft.
Proof. apply run_reachable, store0_reachable. Qed.

Lemma storeSubmitted_reachable : reachable storeSubmitted.
Proof. apply run_reachable, storeDraft_reachable. Qed.

Lemma env_at_healthy t fresh : healthy (env_at t fresh).
Proof. done. Qed.

Lemma storeSubmitted_a1 :
  applications storeSubmitted !! "a1" =
  Some {| id := "a1"; companyId := "c1"; submittedById := "rep1";
          regionId := "GA"; state := SUBMITTED; reasonRejected := None;
          form := "{}"; submittedAt := Some 2; decidedAt := None;
          createdAt := 1 |}.
Proof. reflexivity. Qed.

(** * The transition table is what the endpoints enforce *)

(** C1. For an application found in state S and an action A, called by an
    actor whose role the endpoint admits and with the store answering, the
    call succeeds exactly when the Transition Table marks (S, A) legal; on
    success the stored state is the table's next state for A; when the
    table has no entry (so always from APPROVED and REJECTED) the call is
    answered "Invalid transition" and nothing changes.  The [transition]
    helper follows the same table for all five actions. *)
Theorem transition_follows_table env u A i data s app :
  keyed s → healthy env →
  applications s !! i = Some app →
  includes (endpointRoles A) (role u) = true →
  let r := handle env (Some u) (endpoint A i data) s in
  (succeeded r.1 = true ↔ is_Some (spec_table (state app) A)) ∧
  (∀ S', spec_table (state app) A = Some S' →
     ∃ ua, r.1 = Sent (json ua) ∧
           applications r.2 !! i = Some ua ∧ state ua = S') ∧
  (spec_table (state app) A = None →
     r.1 = Sent (statusMessage 409 "Invalid transition") ∧ r.2 = s) ∧
  match spec_table (state app) A with
  | Some S' =>
      ∃ ua s', transition env i (user_id u) A data s = (inr ua, s') ∧
               applications s' !! i = Some ua ∧ state ua = S'
  | None => transition env i (user_id u) A data s = (inl ErrInvalidTransition, s)
  end.
Proof.
  intros Hk (Hf & Hu & Hc) Hi Hrole r. subst r.
  rewrite endpoint_eq by done. rewrite transition_eq.
  unfold endpointResult, requireRole. rewrite Hrole, Hf, Hi, Hu, Hc. simpl.
  destruct (spec_table (state app) A) as [S'|] eqn:Ht.
  - rewrite (spec_table_can _ _ _ Ht). simpl.
    pose proof (spec_table_next _ _ _ Ht) as Hn.
    repeat split; try done.
    + intros S'' [= <-]. eexists. split; [done|]. simpl.
      rewrite lookup_insert_eq. split; [done|]. by rewrite written_state.
    + eexists _, _. split; [done|]. simpl. by rewrite lookup_insert_eq.
  - rewrite (spec_table_none _ _ Ht). simpl.
    repeat split; try done; by intros [? ?].
Qed.

Lemma transition_follows_table_witness :
  keyed storeSubmitted ∧ healthy (env_at 3 "") ∧
  includes (endpointRoles region_approve) (role regionalGA) = true ∧
  ∃ ua, (handle (env_at 3 "") (Some regionalGA)
           (endpoint region_approve "a1" emptyData) storeSubmitted).1
        = Sent (json ua) ∧ state ua = NATIONAL_REVIEW.
Proof.
  split; [exact (reachable_keyed _ storeSubmitted_reachable)|].
  split; [exact (env_at_healthy 3 "")|].
  split; [reflexivity|].
  destruct (transition_follows_table (env_at 3 "") regionalGA region_approve
              "a1" emptyData storeSubmitted _
              (reachable_keyed _ storeSubmitted_reachable)
              (env_at_healthy 3 "") storeSubmitted_a1 eq_refl)
    as (_ & Hnext & _).
  destruct (Hnext NATIONAL_REVIEW eq_refl) as (ua & Hsent & _ & Hst).
  exists ua. by split.
Defined.

(** * A call changes the store all at once or not at all *)

(** C2. Whatever the actor, the store's faults and the application's
    state: a transition call that succeeds has rewritten the application's
    row and appended exactly one event, carrying the application id, the
    action and the actor; a call that does not succeed (no such
    application, illegal action, refused role, a store call that rejects,
    even after the row was already rewritten inside the transaction)
    leaves the whole store as it was. *)
Theorem transition_all_or_nothing env user A i data s :
  keyed s →
  let r := handle env user (endpoint A i data) s in
  if succeeded r.1 then
    ∃ u app ua ev,
      user = Some u ∧ applications s !! i = Some app ∧
      r.1 = Sent (json ua) ∧ state ua = nextState A ∧
      applications r.2 = <[i := ua]> (applications s) ∧
      events r.2 = events s ++ [ev] ∧
      applicationId ev = i ∧ action ev = A ∧ actorId ev = user_id u ∧
      companies r.2 = companies s
  else r.2 = s.
Proof.
  intros Hk r.
  destruct (endpoint_effect env user A i data s Hk)
    as [[Hfail Hsame]|(u & app & Hu & _ & Hi & _ & Hsent & Hstore)];
    fold r in Hfail, Hsame || fold r in Hsent, Hstore.
  - by rewrite Hfail.
  - rewrite Hsent. simpl. rewrite Hstore. simpl.
    eexists u, app, _, _. repeat split; try done. by rewrite written_state.
Qed.

Lemma transition_all_or_nothing_witness :
  keyed storeSubmitted ∧
  (handle (env_at 3 "") (Some national)
     (endpoint reject "a1" emptyData) storeSubmitted).2 ≠ storeSubmitted ∧
  (handle {| now := 3; freshId := ""; failFind := false;
             failUpdate := false; failCreate := true |} (Some national)
     (endpoint reject "a1" emptyData) storeSubmitted).2 = storeSubmitted.
Proof.
  split; [exact (reachable_keyed _ storeSubmitted_reachable)|]. split.
  - pose proof (transition_all_or_nothing (env_at 3 "") (Some national) reject
                  "a1" emptyData storeSubmitted
                  (reachable_keyed _ storeSubmitted_reachable)) as H.
    cbv zeta in H.
    set (r := handle _ _ _ _) in *.
    assert (succeeded r.1 = true) as Hok by reflexivity.
    rewrite Hok in H.
    destruct H as (u & app & ua & ev & _ & _ & _ & _ & _ & Hev & _).
    intros Heq. rewrite Heq in Hev.
    apply (f_equal length) in Hev. rewrite length_app in Hev. simpl in Hev. lia.
  - exact (transition_all_or_nothing
             {| now := 3; freshId := ""; failFind := false;
                failUpdate := false; failCreate := true |} (Some national)
             reject "a1" emptyData storeSubmitted
             (reachable_keyed _ storeSubmitted_reachable)).
Defined.

(** * How one call moves one row *)

Lemma handle_row env user req s i app :
  keyed s → applications s !! i = Some app →
  let r := handle env user req s in
  applications r.2 !! i = Some app ∨
  (∃ A data,
      req = endpoint A i data ∧ can (state app) A = true ∧
      succeeded r.1 = true ∧
      applications r.2 !! i = Some (written env A (endpointData A data) app)).
Proof.
  intros Hk Hi r. subst r.
  destruct (request_cases req) as [(c & g & f & ->)|(A & j & data & ->)].
  - left.
    destruct (create_effect env user c g f s)
      as [->|(a & Hfresh & _ & _ & _ & _ & _ & ->)]; [done|].
    simpl. rewrite lookup_insert_ne; [done|]. intros <-. congruence.
  - destruct (endpoint_effect env user A j data s Hk)
      as [[_ ->]|(u & a & _ & _ & Hj & Hcan & Hsent & Hstore)]; [by left|].
    rewrite Hstore. simpl. destruct (decide (j = i)) as [->|Hne].
    + right. exists A, data. rewrite lookup_insert_eq.
      assert (a = app) as -> by congruence.
      repeat split; try done. by rewrite Hsent.
    + left. by rewrite lookup_insert_ne.
Qed.

Lemma handle_new_row env user req s i app' :
  applications s !! i = None →
  applications (handle env user req s).2 !! i = Some app' →
  state app' = DRAFT ∧ reasonRejected app' = None ∧
  submittedAt app' = None ∧ decidedAt app' = None.
Proof.
  intros Hi.
  destruct (request_cases req) as [(c & g & f & ->)|(A & j & data & ->)].
  - destruct (create_effect env user c g f s)
      as [->|(a & _ & _ & HS & HR & HSa & HD & ->)]; [congruence|].
    simpl. rewrite lookup_insert. case_decide; [|congruence].
    by intros [= <-].
  - destruct A; simpl;
      unfold submitRoute, requestInfoRoute, regionApproveRoute,
        nationalApproveRoute, rejectRoute, tryTransition;
      (destruct (requireRole _ user) as [?|u]; [simpl; congruence|]);
      rewrite ?transition_eq; unfold_tx;
      (destruct (failFind env); [simpl; congruence|]);
      (destruct (applications s !! j) as [a|] eqn:Hj; [|simpl; congruence]);
      (destruct (can (state a) _); simpl; [|congruence]);
      (destruct (failUpdate env); simpl; [congruence|]).
    + destruct (applications s !! id a) as [row|] eqn:Hrow; [|simpl; congruence].
      destruct (failCreate env); simpl; [congruence|].
      rewrite lookup_insert. case_decide; congruence.
    + destruct (failCreate env); simpl; [congruence|].
      rewrite lookup_insert. case_decide; congruence.
    + destruct (failCreate env); simpl; [congruence|].
      rewrite lookup_insert. case_decide; congruence.
    + destruct (failCreate env); simpl; [congruence|].
      rewrite lookup_insert. case_decide; congruence.
    + destruct (failCreate env); simpl; [congruence|].
      rewrite lookup_insert. case_decide; congruence.
Qed.

(** No handler reads the region of the caller. *)
Lemma handle_ignores_user_region env u region' req s :
  handle env (Some u) req s =
  handle env (Some {| user_id := user_id u; email := email u;
                      username := username u; role := role u;
                      user_regionId := region' |}) req s.
Proof.
  destruct u as [uid em un ro rg].
  destruct req; simpl;
    unfold createRoute, submitRoute, requestInfoRoute, regionApproveRoute,
      nationalApproveRoute, rejectRoute, requireRole; simpl;
    by destruct (includes _ ro).
Qed.

(** An absent row: 404 from the submit handler, 409 from the four
    handlers that go through [transition]. *)
Lemma missing_application env u A i data s :
  keyed s → failFind env = false →
  includes (endpointRoles A) (role u) = true →
  applications s !! i = None →
  handle env (Some u) (endpoint A i data) s = (onMissing A, s).
Proof.
  intros Hk Hf Hrole Hi. rewrite endpoint_eq by done.
  unfold endpointResult, requireRole. by rewrite Hrole, Hf, Hi.
Qed.



(** * Authorisation and status codes: where the handlers fall short *)

(** C3. The handlers of request_info, region_approve and reject check the
    role only.  A regional secretary of region AS acting on the submitted
    application [a1] of region GA is answered 200 on all three, not 403,
    and region_approve moves the application to NATIONAL_REVIEW. *)
Theorem region_scope_not_enforced :
  role regionalAS = REGIONAL_SECRETARIAT ∧
  user_regionId regionalAS = Some "AS" ∧
  regionId <$> applications storeSubmitted !! "a1" = Some "GA" ∧
  Forall (λ A,
    sentStatus (handle (env_at 3 "") (Some regionalAS)
                  (endpoint A "a1" emptyData) storeSubmitted).1 = Some 200)
    [request_info; region_approve; reject] ∧
  state <$> applications
      (handle (env_at 3 "") (Some regionalAS)
         (PostRegionApprove "a1") storeSubmitted).2 !! "a1"
    = Some NATIONAL_REVIEW.
Proof. repeat split; repeat constructor. Qed.

(** C7. The submit handler checks the role only.  [rep2], a company
    representative who does not own company [c1], may not read its
    application [a1] (GET /a1 answers 403) and yet submits it: 200, and
    the application is SUBMITTED with an event in [rep2]'s name. *)
Theorem submit_ignores_ownership :
  companies storeDraft !! "c1" = Some (Some "rep1") ∧
  companyId <$> applications storeDraft !! "a1" = Some "c1" ∧
  role rep2 = COMPANY_REP ∧ user_id rep2 ≠ "rep1" ∧
  sentStatus (getRoute (env_at 2 "") (Some rep2) "a1" storeDraft).1
    = Some 403 ∧
  sentStatus (handle (env_at 2 "") (Some rep2) (PostSubmit "a1") storeDraft).1
    = Some 200 ∧
  state <$> applications
      (handle (env_at 2 "") (Some rep2) (PostSubmit "a1") storeDraft).2 !! "a1"
    = Some SUBMITTED ∧
  actorId <$> last (events
      (handle (env_at 2 "") (Some rep2) (PostSubmit "a1") storeDraft).2)
    = Some "rep2".
Proof. repeat split. by intros [=]. Qed.

(** C8. With no application [nope] in the store, an admin is answered 404
    by the submit handler and 409, with the message "Not found", by the
    handlers of request_info, region_approve, national_approve and
    reject. *)
Theorem missing_application_answered_409 :
  applications store0 !! "nope" = None ∧
  (handle (env_at 1 "") (Some admin) (PostSubmit "nope") store0).1
    = Sent (statusMessage 404 "Not found") ∧
  Forall (λ A,
    (handle (env_at 1 "") (Some admin) (endpoint A "nope" emptyData) store0).1
      = Sent (statusMessage 409 "Not found"))
    [request_info; region_approve; national_approve; reject].
Proof. repeat split; repeat constructor. Qed.

Lemma storeChanges_reachable : reachable storeChanges.
Proof. apply run_reachable, storeSubmitted_reachable. Qed.

Lemma storeRejected_reachable : reachable storeRejected.
Proof. apply run_reachable, storeSubmitted_reachable. Qed.

Lemma terminal_cannot S A : terminal S = true → can S A = false.
Proof. by destruct S, A. Qed.

(** * The timestamps and the rejection reason *)

(** C4, as worded, fails: [a1] was submitted at time 2 and sent back for
    changes; the second submit, at time 4, replaces the timestamp. *)
Lemma submittedAt_rewritten_on_resubmit : ¬ submittedAt_written_once.
Proof.
  intros H.
  specialize (H storeChanges (env_at 4 "") (Some rep1) (PostSubmit "a1") "a1"
                _ _ storeChanges_reachable eq_refl
                (ex_intro _ 2 eq_refl) eq_refl).
  discriminate H.
Qed.

(** C4, amended.  In every reachable store the submission timestamp is
    null exactly for the applications still in DRAFT; every successful
    submit (the first one and each resubmission from REQUESTED_CHANGES)
    sets it to the time of that call; every other successful transition
    leaves it as it was. *)
Theorem submittedAt_follows_submit s env user A i data app :
  reachable s → applications s !! i = Some app →
  (submittedAt app = None ↔ state app = DRAFT) ∧
  let r := handle env user (endpoint A i data) s in
  if succeeded r.1 then
    ∃ app', applications r.2 !! i = Some app' ∧
            submittedAt app' =
              if decide (A = submit) then Some (now env) else submittedAt app
  else applications r.2 !! i = Some app.
Proof.
  intros Hs Hi. split; [apply (reachable_consistent s Hs i app Hi)|].
  pose proof (reachable_keyed s Hs) as Hk. intros r.
  destruct (endpoint_effect env user A i data s Hk)
    as [[Hfail Hsame]|(u & a & _ & _ & Hj & _ & Hsent & Hstore)];
    fold r in Hfail, Hsame || fold r in Hsent, Hstore.
  - by rewrite Hfail, Hsame.
  - rewrite Hsent, Hstore. simpl. eexists. rewrite lookup_insert_eq.
    split; [done|]. assert (a = app) as -> by congruence. by destruct A.
Qed.

Lemma submittedAt_follows_submit_witness :
  reachable storeChanges ∧
  ∃ app', applications (handle (env_at 4 "") (Some rep1)
                          (endpoint submit "a1" emptyData) storeChanges).2
            !! "a1" = Some app' ∧
          submittedAt app' = Some 4.
Proof.
  split; [exact storeChanges_reachable|].
  exact (proj2 (submittedAt_follows_submit storeChanges (env_at 4 "")
                  (Some rep1) submit "a1" emptyData _
                  storeChanges_reachable eq_refl)).
Defined.

Lemma handle_decided env user req s i app app' :
  reachable s →
  applications s !! i = Some app →
  applications (handle env user req s).2 !! i = Some app' →
  match decidedAt app with
  | Some t => app' = app
  | None =>
      decidedAt app' = None ∨
      (decidedAt app' = Some (now env) ∧ terminal (state app') = true ∧
       succeeded (handle env user req s).1 = true)
  end.
Proof.
  intros Hs Hi Hi'.
  pose proof (reachable_consistent s Hs i app Hi) as [_ Hd _ _].
  destruct (handle_row env user req s i app (reachable_keyed s Hs) Hi)
    as [Hsame|(A & data & -> & Hcan & Hok & Hrow)].
  - assert (app' = app) as -> by congruence.
    destruct (decidedAt app); [done|by left].
  - assert (app' = written env A (endpointData A data) app) as ->
      by congruence.
    destruct (decidedAt app) as [t|] eqn:Ht.
    + destruct (terminal (state app)) eqn:Hterm.
      * by rewrite (terminal_cannot _ A Hterm) in Hcan.
      * destruct Hd as [_ Hd]. by specialize (Hd eq_refl).
    + destruct A; simpl; rewrite ?Ht; auto.
Qed.

Lemma handle_decidedAt_of env user req s i t :
  reachable s → decidedAt_of s i = Some t →
  decidedAt_of (handle env user req s).2 i = Some t.
Proof.
  unfold decidedAt_of. intros Hs Ht.
  destruct (applications s !! i) as [app|] eqn:Hi; [|done]. simpl in Ht.
  destruct (handle_row env user req s i app (reachable_keyed s Hs) Hi)
    as [Hsame|(A & data & -> & _ & _ & Hrow)].
  - by rewrite Hsame.
  - pose proof (handle_decided env user _ s i app _ Hs Hi Hrow) as H.
    rewrite Ht in H. by rewrite Hrow, H.
Qed.

Lemma decidedAt_writes_after_set i calls s :
  reachable s → is_Some (decidedAt_of s i) → decidedAt_writes i calls s = 0%nat.
Proof.
  revert s. induction calls as [|[[env user] req] rest IH]; intros s Hs [t Ht];
    [done|].
  simpl. pose proof (handle_decidedAt_of env user req s i t Hs Ht) as Ht'.
  rewrite IH; [|by constructor|by eexists].
  rewrite bool_decide_eq_true_2; [done|congruence].
Qed.

Lemma decidedAt_writes_bound i calls s :
  reachable s → (decidedAt_writes i calls s ≤ 1)%nat.
Proof.
  revert s. induction calls as [|[[env user] req] rest IH]; intros s Hs;
    simpl; [lia|].
  assert (reachable (handle env user req s).2) as Hs' by by constructor.
  case_bool_decide as Heq; [specialize (IH _ Hs'); lia|].
  destruct (decidedAt_of (handle env user req s).2 i) as [t'|] eqn:Ht'.
  - rewrite decidedAt_writes_after_set; [lia|done|by eexists].
  - destruct (decidedAt_of s i) as [t|] eqn:Ht; [|done].
    rewrite (handle_decidedAt_of env user req s i t Hs Ht) in Ht'. done.
Qed.

(** For calls served one after the other.  In every store they reach, the
    decision timestamp of an application
    is null exactly when its state is neither APPROVED nor REJECTED.  A
    call that finds it null either leaves it null or is the successful
    transition into APPROVED or REJECTED, which sets it to the time of the
    call; a call that finds it set leaves the whole row as it was.  Over
    any sequence of calls the timestamp changes at most once. *)
Theorem decidedAt_set_once s :
  reachable s →
  (∀ i app, applications s !! i = Some app →
     (decidedAt app = None ↔ state app ≠ APPROVED ∧ state app ≠ REJECTED)) ∧
  (∀ env user req i app app',
     applications s !! i = Some app →
     applications (handle env user req s).2 !! i = Some app' →
     match decidedAt app with
     | Some t => app' = app
     | None =>
         decidedAt app' = None ∨
         (decidedAt app' = Some (now env) ∧ terminal (state app') = true ∧
          succeeded (handle env user req s).1 = true)
     end) ∧
  (∀ i calls, (decidedAt_writes i calls s ≤ 1)%nat).
Proof.
  intros Hs. split; [|split].
  - intros i app Hi.
    pose proof (reachable_consistent s Hs i app Hi) as [_ Hd _ _].
    rewrite Hd. destruct (state app); simpl; intuition congruence.
  - intros env user req i app app'. by apply handle_decided.
  - intros i calls. by apply decidedAt_writes_bound.
Qed.

Lemma decidedAt_set_once_witness :
  reachable storeSubmitted ∧
  decidedAt_writes "a1"
    approvalCalls storeSubmitted = 1%nat ∧
  (decidedAt_writes "a1"
    approvalCalls storeSubmitted ≤ 1)%nat.
Proof.
  split; [exact storeSubmitted_reachable|]. split; [reflexivity|].
  exact (proj2 (proj2 (decidedAt_set_once storeSubmitted
                         storeSubmitted_reachable)) "a1" _).
Defined.

(** C6, as worded, fails: a reject whose payload carries the empty string
    leaves [a1] in REJECTED with an empty reason. *)
Lemma empty_reason_is_stored : ¬ reason_nonempty_iff_rejected.
Proof.
  intros H.
  destruct (proj2 (H storeRejected "a1" _ storeRejected_reachable eq_refl)
              eq_refl) as (r & Hr & Hne).
  simpl in Hr. congruence.
Qed.

(** * Two calls on one application *)


(** The submit handler reads and checks before its transaction opens: the
    handler is its read followed by its write ... *)
Lemma submitRoute_two_awaits env user i s :
  submitRoute env user i s =
  match submitRead env user i s with
  | inl o => (o, s)
  | inr (u, app) => submitWrite env u app s
  end.
Proof.
  unfold submitRoute, submitRead, submitWrite, findUnique.
  destruct (requireRole _ user) as [?|u]; [done|].
  destruct (failFind env); [done|].
  destruct (applications s !! i) as [app|]; [|done].
  by destruct (can (state app) submit).
Qed.

(** ... and when two submit calls both read the draft before either
    writes, both writes go through: two answers 200, two submit events. *)
Lemma overlapping_submits_both_succeed :
  ∃ appA appB,
    submitRead (env_at 2 "") (Some rep1) "a1" storeDraft = inr (rep1, appA) ∧
    submitRead (env_at 3 "") (Some admin) "a1" storeDraft = inr (admin, appB) ∧
    let wA := submitWrite (env_at 2 "") rep1 appA storeDraft in
    let wB := submitWrite (env_at 3 "") admin appB wA.2 in
    succeeded wA.1 = true ∧ succeeded wB.1 = true ∧
    action <$> events wB.2 = [submit; submit].
Proof. eexists _, _. repeat split. Qed.

(** * States no call produces *)

Lemma run_not_draft calls s i app app' :
  keyed s →
  applications s !! i = Some app → state app ≠ DRAFT →
  applications (run calls s) !! i = Some app' → state app' ≠ DRAFT.
Proof.
  revert s app. induction calls as [|[[env user] req] rest IH];
    intros s app Hk Hi Hnd; simpl.
  - congruence.
  - pose proof (handle_keyed env user req s Hk) as Hk'.
    destruct (handle_row env user req s i app Hk Hi)
      as [Hsame|(A & data & -> & _ & _ & Hrow)].
    + by apply (IH _ app).
    + apply (IH _ _ Hk' Hrow). rewrite written_state. by destruct A.
Qed.

(** C10. Every action's next state is one of SUBMITTED, REQUESTED_CHANGES,
    NATIONAL_REVIEW, APPROVED, REJECTED; a row that a call adds to the
    table is in DRAFT; so no application of a reachable store is in
    REGION_REVIEW, and an application that is no longer in DRAFT is not in
    DRAFT after any further sequence of calls. *)
Theorem region_review_unreachable s :
  reachable s →
  (∀ A, nextState A ∈
          [SUBMITTED; REQUESTED_CHANGES; NATIONAL_REVIEW; APPROVED; REJECTED]) ∧
  (∀ env user req i app',
     applications s !! i = None →
     applications (handle env user req s).2 !! i = Some app' →
     state app' = DRAFT) ∧
  (∀ i app, applications s !! i = Some app → state app ≠ REGION_REVIEW) ∧
  (∀ calls i app app',
     applications s !! i = Some app → state app ≠ DRAFT →
     applications (run calls s) !! i = Some app' → state app' ≠ DRAFT).
Proof.
  intros Hs. repeat split.
  - intros A. destruct A; simpl; set_solver.
  - intros env user req i app' Hi Hi'.
    by destruct (handle_new_row env user req s i app' Hi Hi').
  - intros i app Hi. apply (reachable_consistent s Hs i app Hi).
  - intros calls i app app'. apply run_not_draft. by apply reachable_keyed.
Qed.

Lemma region_review_unreachable_witness :
  reachable storeChanges ∧
  state <$> applications storeChanges !! "a1" = Some REQUESTED_CHANGES ∧
  ∀ app', applications (run approvalCalls storeChanges) !! "a1" = Some app' →
          state app' ≠ DRAFT.
Proof.
  split; [exact storeChanges_reachable|]. split; [reflexivity|].
  intros app'.
  refine (proj2 (proj2 (proj2 (region_review_unreachable storeChanges
                                 storeChanges_reachable)))
            approvalCalls "a1" _ app' eq_refl _).
  discriminate.
Defined.

(** * Further properties of the workflow *)

Lemma handle_events env user req s :
  keyed s →
  let r := handle env user req s in
  (succeeded r.1 = false ∧ events r.2 = events s) ∨
  (∃ ev, succeeded r.1 = true ∧ events r.2 = events s ++ [ev]).
Proof.
  intros Hk. cbv zeta.
  destruct (request_cases req) as [(c & g & f & ->)|(A & i & data & ->)].
  - left. simpl. unfold createRoute, createApplication, requireRole.
    destruct user as [u|]; [|done].
    destruct (includes _ (role u)); simpl; [|done].
    destruct (failCreate env); [done|].
    destruct (companies s !! c); [|done].
    by destruct (applications s !! freshId env).
  - destruct (endpoint_effect env user A i data s Hk)
      as [[Hfail Hsame]|(u & app & _ & _ & _ & _ & Hsent & Hstore)];
      [left; by rewrite Hsame|].
    right. eexists. by rewrite Hsent, Hstore.
Qed.

Lemma handle_companies env user req s :
  keyed s → companies (handle env user req s).2 = companies s.
Proof.
  intros Hk.
  destruct (request_cases req) as [(c & g & f & ->)|(A & i & data & ->)].
  - by destruct (create_effect env user c g f s)
      as [->|(app & _ & _ & _ & _ & _ & _ & ->)].
  - by destruct (endpoint_effect env user A i data s Hk)
      as [[_ ->]|(u & app & _ & _ & _ & _ & _ & ->)].
Qed.

(** X1. The event log only grows, and by exactly one event for each call
    answered 200: after any sequence of calls the log is the old log
    followed by as many events as calls succeeded; the company table is
    untouched and no application row disappears. *)
Theorem log_append_only calls s :
  keyed s →
  (∃ added, events (run calls s) = events s ++ added ∧
            length added = successes calls s) ∧
  companies (run calls s) = companies s ∧
  (∀ i, is_Some (applications s !! i) →
        is_Some (applications (run calls s) !! i)).
Proof.
  revert s. induction calls as [|[[env user] req] rest IH]; intros s Hk; simpl.
  - split; [|done]. exists []. by rewrite app_nil_r.
  - destruct (IH _ (handle_keyed env user req s Hk))
      as ((added & Hev & Hlen) & Hco & Hrows).
    split; [|split].
    + destruct (handle_events env user req s Hk)
        as [[Hno Hsame]|(ev & Hyes & Hone)].
      * exists added. by rewrite Hev, Hsame, Hno.
      * exists (ev :: added). rewrite Hev, Hone, Hyes, <- app_assoc.
        split; [done|]. simpl. by rewrite Hlen.
    + by rewrite Hco, handle_companies.
    + intros i [app Hi]. apply Hrows.
      destruct (handle_row env user req s i app Hk Hi)
        as [->|(? & ? & _ & _ & _ & ->)]; by eexists.
Qed.

Lemma log_append_only_witness :
  keyed storeSubmitted ∧
  ∃ added, events (run approvalCalls storeSubmitted)
             = events storeSubmitted ++ added ∧
           length added = 2%nat.
Proof.
  split; [exact (reachable_keyed _ storeSubmitted_reachable)|].
  exact (proj1 (log_append_only approvalCalls storeSubmitted
                  (reachable_keyed _ storeSubmitted_reachable))).
Defined.

Lemma written_columns env A data app :
  let ua := written env A data app in
  id ua = id app ∧ companyId ua = companyId app ∧
  submittedById ua = submittedById app ∧ regionId ua = regionId app ∧
  form ua = form app ∧ createdAt ua = createdAt app.
Proof. by destruct A. Qed.

(** X2. Whatever calls follow, an application keeps its id, company,
    submitter, region, form and creation time: the handlers rewrite only
    the state, the rejection reason and the two later timestamps. *)
Theorem identity_columns_immutable calls s i app :
  keyed s → applications s !! i = Some app →
  ∃ app', applications (run calls s) !! i = Some app' ∧
          id app' = id app ∧ companyId app' = companyId app ∧
          submittedById app' = submittedById app ∧
          regionId app' = regionId app ∧
          form app' = form app ∧ createdAt app' = createdAt app.
Proof.
  revert s app. induction calls as [|[[env user] req] rest IH];
    intros s app Hk Hi; simpl.
  - by exists app.
  - pose proof (handle_keyed env user req s Hk) as Hk'.
    destruct (handle_row env user req s i app Hk Hi)
      as [Hsame|(A & data & _ & _ & _ & Hrow)].
    + by apply IH.
    + destruct (IH _ _ Hk' Hrow) as (app' & Hi' & H).
      exists app'. split; [done|].
      destruct (written_columns env A (endpointData A data) app)
        as (E1 & E2 & E3 & E4 & E5 & E6).
      by rewrite <- E1, <- E2, <- E3, <- E4, <- E5, <- E6.
Qed.

Lemma identity_columns_immutable_witness :
  keyed storeDraft ∧
  ∃ app', applications (run approvalCalls storeSubmitted) !! "a1" = Some app' ∧
          id app' = "a1" ∧ companyId app' = "c1" ∧
          submittedById app' = "rep1" ∧ regionId app' = "GA" ∧
          form app' = "{}" ∧ createdAt app' = 1.
Proof.
  split; [exact (reachable_keyed _ storeDraft_reachable)|].
  exact (identity_columns_immutable
           ((env_at 2 "", Some rep1, PostSubmit "a1") :: approvalCalls)
           storeDraft "a1" _
           (reachable_keyed _ storeDraft_reachable) eq_refl).
Defined.

Lemma replay_snoc S l A :
  replay S (l ++ [A]) =
  S' ← replay S l; if can S' A then Some (nextState A) else None.
Proof.
  revert S. induction l as [|B l IH]; intros S; simpl.
  - by destruct (can S A).
  - destruct (can S B); [apply IH|done].
Qed.

Lemma history_snoc s apps' ev j :
  history {| applications := apps'; events := events s ++ [ev];
             companies := companies s |} j =
  history s j ++ (if decide (applicationId ev = j) then [action ev] else []).
Proof.
  unfold history. simpl. rewrite filter_app, fmap_app.
  rewrite filter_cons, filter_nil. by case_decide.
Qed.

Lemma reachable_history s i :
  reachable s →
  match applications s !! i with
  | Some app => replay DRAFT (history s i) = Some (state app)
  | None => history s i = []
  end.
Proof.
  intros Hs. revert i. induction Hs as [cs|s env user req Hs IH]; intros j.
  - simpl. by rewrite lookup_empty.
  - pose proof (reachable_keyed s Hs) as Hk.
    destruct (request_cases req) as [(c & g & f & ->)|(A & i & data & ->)].
    + destruct (create_effect env user c g f s)
        as [->|(app & Hfresh & _ & HS & _ & _ & _ & ->)]; [apply IH|].
      simpl. unfold history. simpl. fold (history s j).
      rewrite lookup_insert. case_decide as Hj; [|apply IH].
      subst j. specialize (IH (freshId env)). rewrite Hfresh in IH.
      by rewrite IH, HS.
    + destruct (endpoint_effect env user A i data s Hk)
        as [[_ ->]|(u & app & _ & _ & Hi & Hcan & _ & ->)]; [apply IH|].
      rewrite history_snoc. simpl.
      specialize (IH j). destruct (decide (i = j)) as [<-|Hne].
      * rewrite lookup_insert_eq. rewrite Hi in IH.
        rewrite replay_snoc, IH. simpl. by rewrite Hcan, written_state.
      * rewrite lookup_insert_ne by done. by rewrite app_nil_r.
Qed.

Lemma cannot_repeat A : can (nextState A) A = false.
Proof. by destruct A. Qed.

(** X4. A transition that went through cannot be repeated at once: the
    same action on the same application, by anyone and with any payload,
    changes nothing, and when the caller's role is admitted and the read
    answers, the reply is 409 "Invalid transition". *)
Theorem repeated_call_rejected env1 env2 user1 user2 A i d1 d2 s :
  keyed s →
  succeeded (handle env1 user1 (endpoint A i d1) s).1 = true →
  let s1 := (handle env1 user1 (endpoint A i d1) s).2 in
  let r2 := handle env2 user2 (endpoint A i d2) s1 in
  r2.2 = s1 ∧ succeeded r2.1 = false ∧
  (∀ u2, user2 = Some u2 →
         includes (endpointRoles A) (role u2) = true →
         failFind env2 = false →
         r2.1 = Sent (statusMessage 409 "Invalid transition")).
Proof.
  intros Hk Hok s1 r2.
  pose proof (handle_keyed env1 user1 (endpoint A i d1) s Hk) as Hk1.
  fold s1 in Hk1.
  destruct (endpoint_effect env1 user1 A i d1 s Hk)
    as [[Hfail _]|(u & app & _ & _ & Hi & _ & _ & Hstore)]; [congruence|].
  fold s1 in Hstore.
  assert (applications s1 !! i
          = Some (written env1 A (endpointData A d1) app)) as Hi1.
  { rewrite Hstore. simpl. apply lookup_insert_eq. }
  subst r2. rewrite endpoint_eq by done. unfold endpointResult.
  rewrite Hi1, written_state, cannot_repeat.
  destruct (requireRole _ user2) as [r|u2] eqn:Hrole.
  - repeat split; simpl.
    + unfold requireRole in Hrole. destruct user2 as [u2|]; [|by simplify_eq].
      destruct (negb _); by simplify_eq.
    + intros u2 -> Hr _. unfold requireRole in Hrole.
      by rewrite Hr in Hrole.
  - destruct (failFind env2).
    + repeat split; [by destruct A|done].
    + by repeat split.
Qed.

Lemma repeated_call_rejected_witness :
  keyed storeDraft ∧
  succeeded (handle (env_at 2 "") (Some rep1)
               (endpoint submit "a1" emptyData) storeDraft).1 = true ∧
  (handle (env_at 3 "") (Some rep1) (endpoint submit "a1" emptyData)
     storeSubmitted).1 = Sent (statusMessage 409 "Invalid transition").
Proof.
  split; [exact (reachable_keyed _ storeDraft_reachable)|].
  split; [reflexivity|].
  exact (proj2 (proj2 (repeated_call_rejected (env_at 2 "") (env_at 3 "")
                         (Some rep1) (Some rep1) submit "a1" emptyData
                         emptyData storeDraft
                         (reachable_keyed _ storeDraft_reachable) eq_refl))
           rep1 eq_refl eq_refl eq_refl).
Defined.

Lemma storeTwo_reachable : reachable storeTwo.
Proof. apply run_reachable, storeSubmitted_reachable. Qed.

(** X5. Who can move an application.  Whenever a call changes an existing
    row, the caller is authenticated and is not a MEMBER; the row can have
    become APPROVED only through a national secretary or an admin, and
    NATIONAL_REVIEW only through a regional secretary or an admin (a
    national secretary is refused on region-approve); a company
    representative can only have made it SUBMITTED. *)
Theorem row_change_needs_role env user req s i app app' :
  keyed s →
  applications s !! i = Some app →
  applications (handle env user req s).2 !! i = Some app' →
  app' ≠ app →
  ∃ u A, user = Some u ∧ role u ≠ MEMBER ∧
         can (state app) A = true ∧ state app' = nextState A ∧
         includes (endpointRoles A) (role u) = true ∧
         (state app' = APPROVED →
            role u = NATIONAL_SECRETARIAT ∨ role u = ADMIN) ∧
         (state app' = NATIONAL_REVIEW →
            role u = REGIONAL_SECRETARIAT ∨ role u = ADMIN) ∧
         (role u = COMPANY_REP → state app' = SUBMITTED).
Proof.
  intros Hk Hi Hi' Hne.
  destruct (request_cases req) as [(c & g & f & ->)|(A & j & data & ->)].
  - destruct (create_effect env user c g f s)
      as [Hs|(a & Hfresh & _ & _ & _ & _ & _ & Hs)];
      rewrite Hs in Hi'; [congruence|].
    simpl in Hi'. rewrite lookup_insert_ne in Hi' by congruence. congruence.
  - destruct (endpoint_effect env user A j data s Hk)
      as [[_ Hs]|(u & a & -> & Hrole & Hj & Hcan & _ & Hs)];
      rewrite Hs in Hi'; [congruence|].
    simpl in Hi'. destruct (decide (j = i)) as [->|Hji];
      [|rewrite lookup_insert_ne in Hi' by done; congruence].
    rewrite lookup_insert_eq in Hi'. simplify_eq.
    exists u, A. rewrite written_state.
    repeat split; try done;
      destruct A, (role u); simpl; try done; try discriminate Hrole; auto.
Qed.

Lemma row_change_needs_role_witness :
  keyed storeSubmitted ∧
  ∃ u, Some regionalAS = Some u ∧ role u ≠ MEMBER.
Proof.
  split; [exact (reachable_keyed _ storeSubmitted_reachable)|].
  destruct (row_change_needs_role (env_at 3 "") (Some regionalAS)
              (PostRegionApprove "a1") storeSubmitted "a1" _ _
              (reachable_keyed _ storeSubmitted_reachable)
              storeSubmitted_a1 eq_refl ltac:(discriminate))
    as (u & A & Hu & Hm & _).
  by exists u.
Defined.

(** X6. No application gets stuck: from every state other than APPROVED
    and REJECTED, at most three allowed actions lead to APPROVED, and at
    most two to REJECTED. *)
Theorem every_open_state_can_finish S :
  terminal S = false →
  (∃ l, (length l ≤ 3)%nat ∧ replay S l = Some APPROVED) ∧
  (∃ l, (length l ≤ 2)%nat ∧ replay S l = Some REJECTED).
Proof.
  intros Hopen. destruct S; try discriminate Hopen.
  - split; [exists [submit; region_approve; national_approve]
           |exists [submit; reject]]; split; simpl; (lia || done).
  - split; [exists [region_approve; national_approve]
           |exists [reject]]; split; simpl; (lia || done).
  - split; [exists [region_approve; national_approve]
           |exists [reject]]; split; simpl; (lia || done).
  - split; [exists [submit; region_approve; national_approve]
           |exists [submit; reject]]; split; simpl; (lia || done).
  - split; [exists [national_approve]
           |exists [reject]]; split; simpl; (lia || done).
Qed.

Lemma every_open_state_can_finish_witness :
  terminal REQUESTED_CHANGES = false ∧
  (∃ l, (length l ≤ 3)%nat ∧ replay REQUESTED_CHANGES l = Some APPROVED).
Proof.
  split; [reflexivity|].
  exact (proj1 (every_open_state_can_finish REQUESTED_CHANGES eq_refl)).
Defined.

Lemma endpoint_decision env user A i data s :
  keyed s →
  handle env user (endpoint A i data) s =
  ((endpointDecision env user A i data (applications s !! i)).1,
   commit i (endpointDecision env user A i data (applications s !! i)).2 s).
Proof.
  intros Hk. rewrite endpoint_eq by done.
  unfold endpointResult, endpointDecision.
  destruct (requireRole _ user) as [r|u]; [done|].
  destruct (failFind env); [done|].
  destruct (applications s !! i) as [app|]; [|done].
  destruct (can (state app) A); [|done].
  by destruct (failUpdate env || failCreate env).
Qed.

Lemma commit_keyed i w s env user A data :
  keyed s →
  w = (endpointDecision env user A i data (applications s !! i)).2 →
  keyed (commit i w s).
Proof.
  intros Hk ->.
  pose proof (handle_keyed env user (endpoint A i data) s Hk) as H.
  by rewrite endpoint_decision in H.
Qed.

Lemma commit_lookup_ne i j w s :
  i ≠ j → applications (commit i w s) !! j = applications s !! j.
Proof.
  intros Hne. destruct w as [[ua ev]|]; [|done].
  simpl. by rewrite lookup_insert_ne.
Qed.

Lemma commit_commute i j w1 w2 s :
  i ≠ j →
  applications (commit j w2 (commit i w1 s))
    = applications (commit i w1 (commit j w2 s)) ∧
  events (commit j w2 (commit i w1 s))
    ≡ₚ events (commit i w1 (commit j w2 s)) ∧
  companies (commit j w2 (commit i w1 s))
    = companies (commit i w1 (commit j w2 s)).
Proof.
  intros Hne. destruct w1 as [[ua1 ev1]|], w2 as [[ua2 ev2]|]; simpl;
    repeat split; try done.
  - by apply insert_insert_ne.
  - rewrite <- !app_assoc. apply Permutation_app_head. simpl. constructor.
Qed.

(** X7. Calls on different applications do not interfere: served in
    either order, each gets the same answer, and the two orders leave the
    same application table, the same company table and the same events
    (in the order in which the calls were served). *)
Theorem calls_on_different_applications_commute
    env1 env2 user1 user2 A B i j d1 d2 s :
  keyed s → i ≠ j →
  let c1 := (env1, user1, endpoint A i d1) in
  let c2 := (env2, user2, endpoint B j d2) in
  (serial c1 c2 s).1.1 = (serial c2 c1 s).1.2 ∧
  (serial c1 c2 s).1.2 = (serial c2 c1 s).1.1 ∧
  applications (serial c1 c2 s).2 = applications (serial c2 c1 s).2 ∧
  events (serial c1 c2 s).2 ≡ₚ events (serial c2 c1 s).2 ∧
  companies (serial c1 c2 s).2 = companies (serial c2 c1 s).2.
Proof.
  intros Hk Hne c1 c2. subst c1 c2. unfold serial.
  set (w1 := endpointDecision env1 user1 A i d1 (applications s !! i)).
  set (w2 := endpointDecision env2 user2 B j d2 (applications s !! j)).
  assert (handle env1 user1 (endpoint A i d1) s = (w1.1, commit i w1.2 s))
    as H1 by by apply endpoint_decision.
  assert (handle env2 user2 (endpoint B j d2) s = (w2.1, commit j w2.2 s))
    as H2 by by apply endpoint_decision.
  assert (handle env2 user2 (endpoint B j d2) (commit i w1.2 s)
          = (w2.1, commit j w2.2 (commit i w1.2 s))) as H12.
  { rewrite endpoint_decision
      by by eapply (commit_keyed i _ s env1 user1 A d1).
    by rewrite commit_lookup_ne. }
  assert (handle env1 user1 (endpoint A i d1) (commit j w2.2 s)
          = (w1.1, commit i w1.2 (commit j w2.2 s))) as H21.
  { rewrite endpoint_decision
      by by eapply (commit_keyed j _ s env2 user2 B d2).
    by rewrite commit_lookup_ne. }
  rewrite H1, H2. simpl. rewrite H12, H21. simpl.
  split; [done|]. split; [done|]. by apply commit_commute.
Qed.

Lemma calls_on_different_applications_commute_witness :
  keyed storeTwo ∧ "a1" ≠ "a2" ∧
  applications
    (serial (env_at 4 "", Some national, endpoint reject "a1" emptyData)
            (env_at 5 "", Some rep1, endpoint submit "a2" emptyData)
            storeTwo).2
  = applications
      (serial (env_at 5 "", Some rep1, endpoint submit "a2" emptyData)
              (env_at 4 "", Some national, endpoint reject "a1" emptyData)
              storeTwo).2.
Proof.
  split; [exact (reachable_keyed _ storeTwo_reachable)|].
  split; [discriminate|].
  exact (proj1 (proj2 (proj2 (calls_on_different_applications_commute
           (env_at 4 "") (env_at 5 "") (Some national) (Some rep1)
           reject submit "a1" "a2" emptyData emptyData storeTwo
           (reachable_keyed _ storeTwo_reachable) ltac:(discriminate))))).
Defined.

Lemma written_timed env A data app T :
  consistent app → chronological app → stamped_by T app →
  T ≤ now env → can (state app) A = true →
  chronological (written env A data app) ∧
  stamped_by (now env) (written env A data app).
Proof.
  intros [_ Hd _ _] (Hc1 & Hc2 & Hc3) (Hs1 & Hs2 & Hs3) HT Hcan.
  destruct app as [i c u r S rr f sa da ca]; simpl in *.
  assert (∀ t, sa = Some t → t ≤ now env) as Hs2'
    by (intros t Ht; specialize (Hs2 t Ht); lia).
  assert (∀ d, da = Some d → d ≤ now env) as Hs3'
    by (intros d Ht; specialize (Hs3 d Ht); lia).
  destruct S, A; try discriminate Hcan; simpl in *;
    try (assert (da = None) as -> by by apply Hd);
    repeat split; simpl; try done; try lia;
    intros; simplify_eq; eauto; try lia;
    try (by etrans; [eapply Hc1|eapply Hs2']; eauto).
Qed.

Lemma create_cases env user c g f s :
  let r := handle env user (PostCreate c g f) s in
  (r.2 = s ∧ sentStatus r.1 ≠ Some 201) ∨
  (∃ u, user = Some u ∧ includes [COMPANY_REP; ADMIN] (role u) = true ∧
        is_Some (companies s !! c) ∧ applications s !! freshId env = None ∧
        r = (Sent (successResponse (drafted env c (user_id u) g f)
                     "Application draft created successfully" 201),
             {| applications :=
                  <[freshId env := drafted env c (user_id u) g f]>
                    (applications s);
                events := events s;
                companies := companies s |})).
Proof.
  simpl. unfold createRoute, createApplication, requireRole.
  destruct user as [u|]; [|by left].
  destruct (includes _ (role u)) eqn:Hrole; simpl; [|by left].
  destruct (failCreate env); [by left|].
  destruct (companies s !! c) eqn:Hc; [|by left].
  destruct (applications s !! freshId env) eqn:Hfresh; [by left|].
  right. exists u. by repeat split.
Qed.

Lemma handle_timed env user req s T :
  keyed s → timed T s → T ≤ now env →
  timed (now env) (handle env user req s).2.
Proof.
  intros Hk (Hrows & Hold & Hsorted) HT.
  assert (∀ a, stamped_by T a → stamped_by (now env) a) as Hweak.
  { intros a (H1 & H2 & H3). repeat split; [lia|..].
    - intros t Ht. specialize (H2 t Ht). lia.
    - intros d Hd. specialize (H3 d Hd). lia. }
  assert (∀ i a, applications s !! i = Some a →
            consistent a ∧ chronological a ∧ stamped_by (now env) a) as Hrows'.
  { intros i a Hi. destruct (Hrows i a Hi) as (? & ? & ?). auto. }
  assert (Forall (λ ev, event_at ev ≤ now env) (events s)) as Hold'.
  { eapply Forall_impl; [exact Hold|]. simpl. intros. lia. }
  destruct (request_cases req) as [(c & g & f & ->)|(A & j & data & ->)].
  - destruct (create_cases env user c g f s)
      as [[-> _]|(u & _ & _ & _ & Hfresh & ->)]; [done|].
    split; [|done]. simpl. intros i a. rewrite lookup_insert.
    case_decide; [|by apply Hrows'].
    intros [= <-]. repeat split; simpl; try done; lia.
  - destruct (endpoint_effect env user A j data s Hk)
      as [[_ ->]|(u & app & _ & _ & Hj & Hcan & _ & ->)]; [done|].
    destruct (Hrows j app Hj) as (Hcons & Hchron & Hstamp).
    split; [|split]; simpl.
    + intros i a. rewrite lookup_insert. case_decide; [|by apply Hrows'].
      intros [= <-]. split; [by apply written_consistent|].
      by apply (written_timed env A _ app T).
    + apply Forall_app. split; [done|]. by repeat constructor.
    + apply StronglySorted_app_2; [|done|by repeat constructor].
      intros e1 e2 He1 ->%list_elem_of_singleton. simpl.
      by apply (proj1 (Forall_forall _ _) Hold').
Qed.

Lemma run_timed calls s T :
  keyed s → timed T s → clock_monotone T calls →
  ∃ T', timed T' (run calls s).
Proof.
  revert s T. induction calls as [|[[env user] req] rest IH];
    intros s T Hk Ht Hclock; simpl.
  - by exists T.
  - destruct Hclock as [HT Hrest].
    apply (IH _ (now env)); [by apply handle_keyed| |done].
    by apply handle_timed with T.
Qed.

(** X9. POST / stores nothing, or adds exactly one row: a DRAFT under an
    id that was free, for a company that exists, naming the caller (a
    company representative or an admin) as submitter.  The rows already
    there and the event log are left as they were, and the answer is 201
    exactly when the row was added. *)
Theorem creation_adds_one_draft env user c g f s :
  let r := handle env user (PostCreate c g f) s in
  if decide (sentStatus r.1 = Some 201) then
    ∃ u, user = Some u ∧ (role u = COMPANY_REP ∨ role u = ADMIN) ∧
         is_Some (companies s !! c) ∧
         applications s !! freshId env = None ∧
         applications r.2
           = <[freshId env := drafted env c (user_id u) g f]> (applications s) ∧
         events r.2 = events s ∧ companies r.2 = companies s
  else r.2 = s.
Proof.
  intros r. subst r.
  destruct (create_cases env user c g f s)
    as [[Hsame Hno]|(u & -> & Hrole & Hc & Hfresh & Hr)].
  - destruct (decide _) as [Hd|Hd]; [by destruct Hno|done].
  - rewrite Hr. simpl.
    exists u. repeat split; try done.
    destruct (role u); try discriminate Hrole; auto.
Qed.

(** X10. GET /:id never writes.  For an application that exists and a
    store that answers, a company representative is given it exactly when
    the company it refers to is theirs, and is answered 403 otherwise; an
    admin and both secretariats are given every application, whatever its
    region. *)
Theorem get_route_visibility env u i s app :
  failFind env = false →
  applications s !! i = Some app →
  includes [ADMIN; NATIONAL_SECRETARIAT; REGIONAL_SECRETARIAT; COMPANY_REP]
    (role u) = true →
  (∀ user j, (getRoute env user j s).2 = s) ∧
  (role u ≠ COMPANY_REP →
     (getRoute env (Some u) i s).1 = Sent (json app)) ∧
  (role u = COMPANY_REP →
     companies s !! companyId app = Some (Some (user_id u)) →
     (getRoute env (Some u) i s).1 = Sent (json app)) ∧
  (role u = COMPANY_REP →
     companies s !! companyId app ≠ Some (Some (user_id u)) →
     (getRoute env (Some u) i s).1 = Sent (statusMessage 403 "Forbidden")).
Proof.
  intros Hf Hi Hrole. split.
  { intros user j. unfold getRoute, findUnique.
    destruct (requireRole _ user) as [?|u']; [done|].
    destruct (failFind env); [done|].
    destruct (applications s !! j) as [a|]; [|done].
    by destruct (_ && _). }
  unfold getRoute, findUnique, requireRole. rewrite Hrole, Hf, Hi. simpl.
  repeat split.
  - intros Hne. by rewrite bool_decide_eq_false_2.
  - intros Hrep Hown. rewrite (bool_decide_eq_true_2 _ Hown).
    by rewrite andb_false_r.
  - intros Hrep Hown. rewrite (bool_decide_eq_true_2 _ Hrep).
    by rewrite (bool_decide_eq_false_2 _ Hown).
Qed.

Lemma get_route_visibility_witness :
  failFind (env_at 3 "") = false ∧
  (getRoute (env_at 3 "") (Some regionalAS) "a1" storeSubmitted).1
    = Sent (json {| id := "a1"; companyId := "c1"; submittedById := "rep1";
                    regionId := "GA"; state := SUBMITTED;
                    reasonRejected := None; form := "{}";
                    submittedAt := Some 2; decidedAt := None;
                    createdAt := 1 |}).
Proof.
  split; [reflexivity|].
  exact (proj1 (proj2 (get_route_visibility (env_at 3 "") regionalAS "a1"
                         storeSubmitted _ eq_refl storeSubmitted_a1 eq_refl))
           ltac:(discriminate)).
Defined.

#[local] Instance at_asc_total : Total at_asc.
Proof. intros e1 e2. unfold at_asc. lia. Qed.
#[local] Instance at_asc_trans : Transitive at_asc.
Proof. intros e1 e2 e3. unfold at_asc. lia. Qed.
#[local] Instance createdAt_desc_total : Total createdAt_desc.
Proof. intros a1 a2. unfold createdAt_desc. lia. Qed.
#[local] Instance createdAt_desc_trans : Transitive createdAt_desc.
Proof. intros a1 a2 a3. unfold createdAt_desc. lia. Qed.

Lemma StronglySorted_filter_list {A} (R : relation A) (P : A → Prop)
    `{∀ x, Decision (P x)} (l : list A) :
  StronglySorted R l → StronglySorted R (filter P l).
Proof.
  induction 1 as [|x l Hl IH Hx]; [constructor|].
  rewrite filter_cons. case_decide; [|done].
  constructor; [done|].
  apply Forall_forall. intros y [_ Hy]%list_elem_of_filter.
  by apply (proj1 (Forall_forall _ _) Hx).
Qed.

Lemma StronglySorted_weaken {A} (R1 R2 : relation A) (l : list A) :
  (∀ x y, R1 x y → R2 x y) → StronglySorted R1 l → StronglySorted R2 l.
Proof.
  intros HR. induction 1 as [|x l Hl IH Hx]; constructor; [done|].
  eapply Forall_impl; [exact Hx|]. intros y. apply HR.
Qed.

Lemma strictly_timed_unique (l : list ApplicationEvent) e1 e2 :
  StronglySorted (λ x y, event_at x < event_at y) l →
  e1 ∈ l → e2 ∈ l → event_at e1 = event_at e2 → e1 = e2.
Proof.
  induction 1 as [|x l Hl IH Hx]; [by intros ?%elem_of_nil|].
  pose proof (proj1 (Forall_forall _ _) Hx) as Hlt.
  intros [->|H1]%elem_of_cons [->|H2]%elem_of_cons Heq; [done| | |by apply IH].
  - specialize (Hlt _ H2). simpl in Hlt. lia.
  - specialize (Hlt _ H1). simpl in Hlt. lia.
Qed.

(** X11. GET /:id/events, for a caller of an admitted role and a store
    that answers, changes nothing and returns exactly the events of that
    application, each once, ordered by timestamp; when the timestamps of
    the log are strictly increasing this is the order in which the
    transitions were recorded. *)
Theorem events_route_lists_the_log env u i s :
  includes [ADMIN; NATIONAL_SECRETARIAT; REGIONAL_SECRETARIAT] (role u) = true →
  failFind env = false →
  ∃ evs,
    eventsRoute env (Some u) i s = (Json200 evs, s) ∧
    evs ≡ₚ filter (λ ev, applicationId ev = i) (events s) ∧
    StronglySorted at_asc evs ∧
    (StronglySorted (λ e1 e2, event_at e1 < event_at e2) (events s) →
     evs = filter (λ ev, applicationId ev = i) (events s)).
Proof.
  intros Hrole Hf. unfold eventsRoute, findManyEvents, requireRole.
  rewrite Hrole, Hf. simpl. eexists. split; [done|].
  split; [apply merge_sort_Permutation|].
  split; [apply (StronglySorted_merge_sort _)|].
  intros Hstrict.
  apply (StronglySorted_unique_strong at_asc).
  - intros e1 e2 He1 He2 H12 H21.
    apply (strictly_timed_unique (events s)); [done| | |unfold at_asc in *; lia].
    + rewrite merge_sort_Permutation in He1.
      by apply list_elem_of_filter in He1 as [_ ?].
    + by apply list_elem_of_filter in He2 as [_ ?].
  - apply (StronglySorted_merge_sort _).
  - apply StronglySorted_filter_list.
    eapply StronglySorted_weaken; [|exact Hstrict].
    intros e1 e2. unfold at_asc. lia.
  - apply merge_sort_Permutation.
Qed.

Lemma events_route_lists_the_log_witness :
  failFind (env_at 9 "") = false ∧
  (eventsRoute (env_at 9 "") (Some admin) "a1"
     (run approvalCalls storeSubmitted)).1
  = Json200 (filter (λ ev, applicationId ev = "a1")
               (events (run approvalCalls storeSubmitted))).
Proof.
  split; [reflexivity|].
  destruct (events_route_lists_the_log (env_at 9 "") admin "a1"
              (run approvalCalls storeSubmitted) eq_refl eq_refl)
    as (evs & Hroute & _ & _ & Hsame).
  rewrite Hroute. simpl. f_equal. apply Hsame.
  vm_compute. repeat constructor.
Defined.

(** X12. For an id that no application has, GET /:id/events on a
    reachable store answers 200 with the empty list (and not 404): the
    handler does not look the application up, and the log holds no event
    for an application that does not exist. *)
Theorem events_of_unknown_application env u i s :
  reachable s →
  applications s !! i = None →
  includes [ADMIN; NATIONAL_SECRETARIAT; REGIONAL_SECRETARIAT] (role u) = true →
  failFind env = false →
  eventsRoute env (Some u) i s = (Json200 [], s).
Proof.
  intros Hs Hi Hrole Hf. unfold eventsRoute, findManyEvents, requireRole.
  rewrite Hrole, Hf. simpl.
  pose proof (reachable_history s i Hs) as Hh. rewrite Hi in Hh.
  unfold history in Hh. apply fmap_nil_inv in Hh. by rewrite Hh.
Qed.

Lemma events_of_unknown_application_witness :
  reachable storeSubmitted ∧
  eventsRoute (env_at 9 "") (Some national) "nope" storeSubmitted
    = (Json200 [], storeSubmitted).
Proof.
  split; [exact storeSubmitted_reachable|].
  exact (events_of_unknown_application (env_at 9 "") national "nope"
           storeSubmitted storeSubmitted_reachable eq_refl eq_refl eq_refl).
Defined.

(** X13. The listing and the region of the caller.  When the handler of
    GET / answers, it has changed nothing, the rows come newest first, and
    a row is listed exactly when it is in the table, has the state the
    query asks for (if it asks), and: for a regional secretary who has a
    region, lies in that region, whatever region the query names; for a
    regional secretary who has no region, nothing more (every region is
    listed); for anyone else, lies in the region the query names (if it
    names one). *)
Theorem list_is_region_scoped env u queryState queryRegionId s rows s' :
  listHandler env u queryState queryRegionId s = (Json200 rows, s') →
  s' = s ∧ StronglySorted createdAt_desc rows ∧
  ∀ a, a ∈ rows ↔
    (∃ i, applications s !! i = Some a) ∧
    (truthy queryState = true →
       queryState ≫= appStateOfString = Some (state a)) ∧
    (if decide (role u = REGIONAL_SECRETARIAT)
     then match user_regionId u with
          | Some r => regionId a = r
          | None => True
          end
     else truthy queryRegionId = true → queryRegionId = Some (regionId a)).
Proof.
  unfold listHandler, findManyApplications.
  set (whereRegion := if decide (role u = REGIONAL_SECRETARIAT) then _ else _).
  intros H.
  destruct (truthy queryState) eqn:Hqs.
  - destruct (queryState ≫= appStateOfString) as [st|] eqn:Hst;
      [|by simplify_eq].
    simpl in H. destruct (failFind env); [by simplify_eq|].
    injection H as <- <-. split; [done|].
    split; [apply (StronglySorted_merge_sort _)|].
    intros a. rewrite merge_sort_Permutation, list_elem_of_filter.
    unfold matchesWhere. simpl. rewrite list_elem_of_fmap.
    subst whereRegion. split.
    + intros [[Hs Hr] ([i a'] & -> & Hi%elem_of_map_to_list)]. simpl in *.
      split; [by exists i|]. split; [by intros _; rewrite Hs|].
      case_decide.
      * done.
      * intros Hq. rewrite Hq in Hr. destruct queryRegionId; [|done].
        by rewrite Hr.
    + intros ([i Hi] & Hs & Hr). split.
      * split; [specialize (Hs eq_refl); congruence|].
        case_decide.
        -- done.
        -- destruct (truthy queryRegionId) eqn:Hq; [|done].
           specialize (Hr eq_refl). by rewrite Hr.
      * exists (i, a). split; [done|]. by apply elem_of_map_to_list.
  - simpl in H. destruct (failFind env); [by simplify_eq|].
    injection H as <- <-. split; [done|].
    split; [apply (StronglySorted_merge_sort _)|].
    intros a. rewrite merge_sort_Permutation, list_elem_of_filter.
    unfold matchesWhere. simpl. rewrite list_elem_of_fmap.
    subst whereRegion. split.
    + intros [[_ Hr] ([i a'] & -> & Hi%elem_of_map_to_list)]. simpl in *.
      split; [by exists i|]. split; [done|].
      case_decide.
      * done.
      * intros Hq. rewrite Hq in Hr. destruct queryRegionId; [|done].
        by rewrite Hr.
    + intros ([i Hi] & _ & Hr). split.
      * split; [done|].
        case_decide.
        -- done.
        -- destruct (truthy queryRegionId) eqn:Hq; [|done].
           specialize (Hr eq_refl). by rewrite Hr.
      * exists (i, a). split; [done|]. by apply elem_of_map_to_list.
Qed.

Lemma list_is_region_scoped_witness :
  (listHandler (env_at 9 "") regionalGA None (Some "AS") storeTwo).1
    = Json200 [{| id := "a1"; companyId := "c1"; submittedById := "rep1";
                  regionId := "GA"; state := SUBMITTED;
                  reasonRejected := None; form := "{}";
                  submittedAt := Some 2; decidedAt := None;
                  createdAt := 1 |}] ∧
  (∀ a, a ∈ [{| id := "a1"; companyId := "c1"; submittedById := "rep1";
                regionId := "GA"; state := SUBMITTED;
                reasonRejected := None; form := "{}";
                submittedAt := Some 2; decidedAt := None;
                createdAt := 1 |}] →
        regionId a = "GA") ∧
  match (listHandler (env_at 9 "") regionalNone None None storeTwo).1 with
  | Json200 rows => regionId <$> rows = ["AS"; "GA"]
  | _ => False
  end.
Proof.
  split; [reflexivity|]. split; [|reflexivity].
  intros a Ha.
  destruct (list_is_region_scoped (env_at 9 "") regionalGA None (Some "AS")
              storeTwo _ _ eq_refl) as (_ & _ & Hrows).
  destruct (proj1 (Hrows a) Ha) as (_ & _ & Hregion).
  exact Hregion.
Defined.

(** * The middleware of common/middleware/auth *)

(** X14. The two [requireRole] of the repository (rbac.ts and the auth
    middleware) take the same decision on every request: both answer 401
    without a user, both answer 403 when the user's role is not listed,
    and otherwise both let the same user through; with an empty list of
    roles nobody gets through. *)
Theorem requireRole_versions_agree roles user :
  match requireRole roles user, rbac_requireRole roles user with
  | inl r1, inl r2 =>
      status r1 = status r2 ∧
      status r1 = (if user is Some _ then 403 else 401) ∧
      (∀ u, user = Some u → role u ∉ roles)
  | inr u1, inr u2 => u1 = u2 ∧ user = Some u1 ∧ role u1 ∈ roles
  | _, _ => False
  end ∧
  (∃ r, requireRole [] user = inl r).
Proof.
  unfold requireRole, rbac_requireRole, includes.
  destruct user as [u|]; simpl.
  - split; [|by eexists]. case_bool_decide; simpl; [done|].
    repeat split; try done. by intros ? [= <-].
  - split; [|by eexists]. by repeat split.
Qed.

(** X15. [requireRegionAccess] restrains regional secretaries only.  An
    admin, a national secretary, a company representative and a member
    always pass.  For a regional secretary the region asked for is the
    first non-empty one of params, body and query: the request passes
    when there is none or when it is the caller's own region, and is
    answered 403 otherwise; fields after the first non-empty one are not
    looked at. *)
Theorem region_access_rule u paramsRegionId bodyRegionId queryRegionId :
  let result :=
    requireRegionAccess (Some u) paramsRegionId bodyRegionId queryRegionId in
  let verdict (requested : option string) :=
    if decide (requested = user_regionId u) then None
    else Some (errorResponse "Access denied for this region" 403) in
  (role u ≠ REGIONAL_SECRETARIAT → result = None) ∧
  (role u = REGIONAL_SECRETARIAT →
     if truthy paramsRegionId then result = verdict paramsRegionId
     else if truthy bodyRegionId then result = verdict bodyRegionId
     else if truthy queryRegionId then result = verdict queryRegionId
     else result = None).
Proof.
  simpl. unfold requireRegionAccess, jsOr. split.
  - intros Hne. destruct (includes _ (role u)); [done|].
    by rewrite decide_False.
  - intros ->. simpl.
    destruct (truthy paramsRegionId) eqn:Hp; simpl.
    { rewrite ?Hp; simpl; rewrite ?Hp; simpl.
      by destruct (decide (paramsRegionId = _)); case_bool_decide. }
    destruct (truthy bodyRegionId) eqn:Hb; simpl.
    { rewrite ?Hb; simpl; rewrite ?Hb; simpl.
      by destruct (decide (bodyRegionId = _)); case_bool_decide. }
    destruct (truthy queryRegionId) eqn:Hq; simpl; [|done].
    rewrite ?Hq; simpl.
    by destruct (decide (queryRegionId = _)); case_bool_decide.
Qed.

Lemma region_access_rule_witness :
  role regionalGA = REGIONAL_SECRETARIAT ∧
  requireRegionAccess (Some regionalGA) (Some "GA") (Some "AS") None = None ∧
  requireRegionAccess (Some regionalGA) (Some "") (Some "AS") (Some "GA")
    = Some (errorResponse "Access denied for this region" 403).
Proof.
  split; [reflexivity|]. split.
  - exact (proj2 (region_access_rule regionalGA (Some "GA") (Some "AS") None)
             eq_refl).
  - exact (proj2 (region_access_rule regionalGA (Some "") (Some "AS")
                    (Some "GA")) eq_refl).
Defined.

(** X16. [requireOwnership] lets an admin and a national secretary
    through without looking at the owner, even when looking it up fails.
    Anyone else passes exactly when the lookup returns their own,
    non-empty, user id; a missing owner or someone else's id is answered
    403 and a failing lookup 500. *)
Theorem ownership_rule u owner :
  (includes [ADMIN; NATIONAL_SECRETARIAT] (role u) = true →
     requireOwnership owner (Some u) = None) ∧
  (includes [ADMIN; NATIONAL_SECRETARIAT] (role u) = false →
     (requireOwnership owner (Some u) = None ↔
        owner = inr (Some (user_id u)) ∧ user_id u ≠ "") ∧
     (∀ e, owner = inl e →
        requireOwnership owner (Some u)
          = Some (errorResponse "Authorization check failed" 500)) ∧
     (∀ o, owner = inr o → o ≠ Some (user_id u) →
        requireOwnership owner (Some u)
          = Some (errorResponse "Access denied" 403))).
Proof.
  unfold requireOwnership. split; [by intros ->|]. intros ->.
  split; [|split].
  - destruct owner as [e|[o|]]; simpl.
    + split; [done|]. by intros [? _].
    + destruct (String.eqb_spec o ""); simpl.
      * split; [done|]. intros [[= ->] ?]. congruence.
      * case_bool_decide as Ho; simpl.
        -- split; [|done]. intros _. split; congruence.
        -- split; [done|]. intros [[= ->] ?]. congruence.
    + split; [done|]. by intros [? _].
  - by intros e ->.
  - intros o -> Hne. destruct (negb (truthy o)); [done|].
    by rewrite bool_decide_eq_false_2.
Qed.

Lemma ownership_rule_witness :
  includes [ADMIN; NATIONAL_SECRETARIAT] (role admin) = true ∧
  requireOwnership (inl ErrStore) (Some admin) = None ∧
  requireOwnership (inr (Some "rep1")) (Some rep2)
    = Some (errorResponse "Access denied" 403).
Proof.
  split; [reflexivity|]. split.
  - exact (proj1 (ownership_rule admin (inl ErrStore)) eq_refl).
  - exact (proj2 (proj2 (proj2 (ownership_rule rep2 (inr (Some "rep1")))
                           eq_refl)) (Some "rep1") eq_refl ltac:(discriminate)).
Defined.

Lemma substring_all (h : string) :
  String.substring 0 (String.length h) h = h.
Proof. induction h as [|b h IH]; simpl; [done|]. by rewrite IH. Qed.

Lemma prefix_split (p h : string) :
  String.prefix p h = true →
  h = p +:+ String.substring (String.length p)
              (String.length h - String.length p) h.
Proof.
  revert h. induction p as [|a p IH]; intros h; simpl.
  - intros _. by rewrite Nat.sub_0_r, substring_all.
  - destruct h as [|b h]; simpl; [done|].
    destruct (Ascii.ascii_dec a b) as [->|]; [|done].
    intros Hp. by rewrite (IH h Hp) at 1.
Qed.

Lemma prefix_append (p t : string) : String.prefix p (p +:+ t) = true.
Proof.
  induction p as [|a p IH]; simpl; [by destruct t|].
  by destruct (Ascii.ascii_dec a a).
Qed.

Lemma substring_append (p t : string) :
  String.substring (String.length p)
    (String.length (p +:+ t) - String.length p) (p +:+ t) = t.
Proof.
  induction p as [|a p IH]; simpl; [|done].
  by rewrite Nat.sub_0_r, substring_all.
Qed.

Lemma bearerToken_spec h tok :
  bearerToken h = Some tok ↔ h = Some ("Bearer " +:+ tok).
Proof.
  unfold bearerToken. split.
  - destruct h as [h|]; [|done].
    destruct (truthy (Some h)); simpl; [|done].
    destruct (String.prefix "Bearer " h) eqn:Hp; [|done].
    intros [= <-]. f_equal. exact (prefix_split "Bearer " h Hp).
  - intros ->.
    assert (truthy (Some ("Bearer " +:+ tok)) = true) as -> by reflexivity.
    rewrite (prefix_append "Bearer " tok). simpl.
    f_equal. exact (substring_append "Bearer " tok).
Qed.

(** X17. [authenticateToken] refuses with 401 and nothing else, and lets a
    request through exactly when its Authorization header is "Bearer "
    followed by a non-empty token that verifies and whose user exists and
    is active; [req.user] then carries the id, email, username and role of
    that row (the role stored now, not the one in the token), and its
    region when that is a non-empty string. *)
Theorem authenticate_token_rule {Decoded : Type}
    (verify : string → string + Decoded)
    (findUser : Decoded → string + option UserRow)
    (authorization : option string) :
  match authenticateToken verify findUser authorization with
  | inl r => status r = 401
  | inr u =>
      ∃ tok decoded row,
        authorization = Some ("Bearer " +:+ tok) ∧ tok ≠ "" ∧
        verify tok = inr decoded ∧ findUser decoded = inr (Some row) ∧
        row_isActive row = true ∧
        u = {| user_id := row_id row; email := row_email row;
               username := row_username row; role := row_role row;
               user_regionId :=
                 if truthy (row_regionId row) then row_regionId row
                 else None |}
  end ∧
  (∀ tok decoded row,
     authorization = Some ("Bearer " +:+ tok) → tok ≠ "" →
     verify tok = inr decoded → findUser decoded = inr (Some row) →
     row_isActive row = true →
     ∃ u, authenticateToken verify findUser authorization = inr u ∧
          user_id u = row_id row ∧ role u = row_role row).
Proof.
  unfold authenticateToken, authenticationFailure, jsOr. split.
  - destruct (bearerToken authorization) as [tok|] eqn:Htok; simpl; [|done].
    apply bearerToken_spec in Htok.
    destruct (String.eqb_spec tok ""); simpl; [done|].
    destruct (verify tok) as [name|decoded] eqn:Hv.
    { by repeat destruct (String.eqb name _). }
    destruct (findUser decoded) as [name|[row|]] eqn:Hf; [|..|done].
    { by repeat destruct (String.eqb name _). }
    destruct (row_isActive row) eqn:Hact; simpl; [|done].
    by exists tok, decoded, row.
  - intros tok decoded row Hh Hne Hv Hf Hact.
    apply bearerToken_spec in Hh. rewrite Hh. simpl.
    destruct (String.eqb_spec tok ""); [done|]. simpl.
    rewrite Hv, Hf, Hact. simpl. by eexists.
Qed.

Lemma authenticate_token_rule_witness :
  ∃ u, authenticateToken (Decoded := string)
         (λ tok, if String.eqb tok "t0k3n" then inr "rep1" else
                   inl "JsonWebTokenError")
         (λ uid, inr (Some {| row_id := uid; row_email := "rep1@abcecg.org";
                              row_username := "rep1"; row_role := COMPANY_REP;
                              row_regionId := Some ""; row_isActive := true |}))
         (Some "Bearer t0k3n") = inr u ∧
       user_id u = "rep1" ∧ role u = COMPANY_REP.
Proof.
  exact (proj2 (authenticate_token_rule (Decoded := string)
                  (λ tok, if String.eqb tok "t0k3n" then inr "rep1" else
                            inl "JsonWebTokenError")
                  (λ uid, inr (Some {| row_id := uid;
                                       row_email := "rep1@abcecg.org";
                                       row_username := "rep1";
                                       row_role := COMPANY_REP;
                                       row_regionId := Some "";
                                       row_isActive := true |}))
                  (Some "Bearer t0k3n"))
           "t0k3n" "rep1" _ eq_refl ltac:(discriminate) eq_refl eq_refl eq_refl).
Defined.

(** * Decisions are final; the submit handler's late write *)

(** X19. The submit handler checks the state only before its transaction
    opens.  Its write, run on whatever the store has become in the
    meantime, goes through as long as the row still exists and the store
    answers: the row is set to SUBMITTED with a new submission time and a
    submit event is appended, whatever state the row is in by then. *)
Theorem submit_write_ignores_current_state env u app s row :
  healthy env →
  applications s !! id app = Some row →
  ∃ ua, submitWrite env u app s =
          (Sent (json ua),
           {| applications := <[id app := ua]> (applications s);
              events := events s ++
                [{| applicationId := id row; action := submit;
                    actorId := user_id u; event_at := now env;
                    meta := emptyData |}];
              companies := companies s |}) ∧
        state ua = SUBMITTED ∧ submittedAt ua = Some (now env) ∧
        decidedAt ua = decidedAt row ∧ reasonRejected ua = reasonRejected row.
Proof.
  intros (_ & Hu & Hc) Hrow. unfold submitWrite. unfold_tx.
  rewrite Hu, Hrow. simpl. rewrite Hc. simpl. by eexists.
Qed.

Lemma submit_write_ignores_current_state_witness :
  healthy (env_at 9 "") ∧
  state <$> applications (run approvalCalls storeSubmitted) !! "a1"
    = Some APPROVED ∧
  ∃ ua, (submitWrite (env_at 9 "") rep1
           {| id := "a1"; companyId := "c1"; submittedById := "rep1";
              regionId := "GA"; state := DRAFT; reasonRejected := None;
              form := "{}"; submittedAt := None; decidedAt := None;
              createdAt := 1 |}
           (run approvalCalls storeSubmitted)).1 = Sent (json ua) ∧
        state ua = SUBMITTED ∧ decidedAt ua = Some 4.
Proof.
  split; [exact (env_at_healthy 9 "")|]. split; [reflexivity|].
  destruct (submit_write_ignores_current_state (env_at 9 "") rep1
              {| id := "a1"; companyId := "c1"; submittedById := "rep1";
                 regionId := "GA"; state := DRAFT; reasonRejected := None;
                 form := "{}"; submittedAt := None; decidedAt := None;
                 createdAt := 1 |}
              (run approvalCalls storeSubmitted) _
              (env_at_healthy 9 "") eq_refl)
    as (ua & Hw & Hst & _ & Hd & _).
  exists ua. rewrite Hw. by repeat split.
Defined.

(** * Handlers in flight: what holds when a submit is overtaken *)


Lemma submitWrite_effect env u app s :
  keyed s →
  (succeeded (submitWrite env u app s).1 = false ∧
   (submitWrite env u app s).2 = s) ∨
  (∃ row,
      applications s !! id app = Some row ∧
      submitWrite env u app s =
      (Sent (json (written env submit emptyData row)),
       {| applications :=
            <[id app := written env submit emptyData row]> (applications s);
          events := events s ++
            [recorded env submit emptyData (id app) (user_id u)];
          companies := companies s |})).
Proof.
  intros Hk. unfold submitWrite. unfold_tx.
  destruct (failUpdate env); [by left|].
  destruct (applications s !! id app) as [row|] eqn:Hrow; [|by left].
  simpl. destruct (failCreate env); [by left|].
  right. exists row. split; [done|]. unfold recorded. simpl.
  by rewrite (Hk _ _ Hrow).
Qed.

(** What a move leaves behind: nothing, one new draft, or one row
    rewritten as for some action together with the event of that action. *)
Lemma move_store m sys :
  keyed (store sys) →
  let env := moveEnv m in
  let s := store sys in
  let s' := store (move m sys) in
  s' = s ∨
  (∃ c uid g f,
      applications s !! freshId env = None ∧
      s' = {| applications :=
                <[freshId env := drafted env c uid g f]> (applications s);
              events := events s;
              companies := companies s |}) ∨
  (∃ i row A data actor,
      applications s !! i = Some row ∧
      s' = {| applications := <[i := written env A data row]> (applications s);
              events := events s ++ [recorded env A data i actor];
              companies := companies s |}).
Proof.
  intros Hk. destruct m as [env user req|env user j|env k]; simpl.
  - destruct (request_cases req) as [(c & g & f & ->)|(A & i & data & ->)].
    + destruct (create_cases env user c g f (store sys))
        as [[-> _]|(u & _ & _ & _ & Hfresh & ->)]; [by left|].
      right. left. by exists c, (user_id u), g, f.
    + destruct (endpoint_effect env user A i data (store sys) Hk)
        as [[_ ->]|(u & app & _ & _ & Hi & _ & _ & ->)]; [by left|].
      right. right. by eexists i, app, A, _, _.
  - left. by destruct (submitRead env user j (store sys)).
  - destruct (suspended sys !! k) as [[u app]|]; [|by left]. simpl.
    destruct (submitWrite_effect env u app (store sys) Hk)
      as [[_ ->]|(row & Hrow & ->)]; [by left|].
    right. right. by eexists (id app), row, submit, emptyData, _.
Qed.

Lemma move_keyed m sys : keyed (store sys) → keyed (store (move m sys)).
Proof.
  intros Hk.
  destruct (move_store m sys Hk)
    as [->|[(c & uid & g & f & _ & ->)|(i & row & A & data & actor & Hi & ->)]];
    [done|..]; intros j a; simpl; rewrite lookup_insert;
    (case_decide; [|by apply Hk]); intros [= <-]; [by subst|].
  rewrite written_id. subst. by apply Hk.
Qed.

Lemma attainable_keyed sys : attainable sys → keyed (store sys).
Proof.
  induction 1 as [cs|sys m _ IH].
  - intros i a. simpl. by rewrite lookup_empty.
  - by apply move_keyed.
Qed.

Lemma play_attainable moves sys : attainable sys → attainable (play moves sys).
Proof.
  revert sys. induction moves as [|m rest IH]; intros sys Hs; [done|].
  simpl. apply IH. by constructor.
Qed.

Lemma play_serve calls s :
  store (play ((λ c, Serve c.1.1 c.1.2 c.2) <$> calls) (quiet s)) = run calls s.
Proof.
  revert s. induction calls as [|[[env user] req] rest IH]; intros s; [done|].
  simpl. apply (IH (handle env user req s).2).
Qed.

Lemma reachable_attainable s : reachable s → attainable (quiet s).
Proof.
  induction 1 as [cs|s env user req _ IH]; [constructor|].
  exact (attainable_move (quiet s) (Serve env user req) IH).
Qed.

Lemma written_reason env A data row :
  reasonRejected (written env A data row) =
  if decide (A = reject)
  then Some (default "Not specified"%string (data_reasonRejected data))
  else reasonRejected row.
Proof. by destruct A. Qed.

Lemma attainable_rejected_reason sys i row :
  attainable sys →
  applications (store sys) !! i = Some row →
  state row = REJECTED → is_Some (reasonRejected row).
Proof.
  intros Hs. revert i row. induction Hs as [cs|sys m Hs IH]; intros j a.
  { simpl. by rewrite lookup_empty. }
  destruct (move_store m sys (attainable_keyed sys Hs))
    as [->|[(c & uid & g & f & _ & ->)|(i & row & A & data & actor & Hi & ->)]];
    [apply IH|..]; simpl; rewrite lookup_insert;
    (case_decide; [|by apply IH]); intros [= <-]; [done|].
  rewrite written_state, written_reason. by destruct A.
Qed.

Lemma attainable_state_of_log sys i :
  attainable sys →
  match applications (store sys) !! i with
  | Some row => state row = stateOfLog (store sys) i
  | None => history (store sys) i = []
  end.
Proof.
  intros Hs. revert i. induction Hs as [cs|sys m Hs IH]; intros j.
  { simpl. by rewrite lookup_empty. }
  destruct (move_store m sys (attainable_keyed sys Hs))
    as [->|[(c & uid & g & f & Hfresh & ->)
           |(i & row & A & data & actor & Hi & ->)]]; [apply IH|..].
  - unfold stateOfLog, history. simpl.
    fold (history (store sys) j). fold (stateOfLog (store sys) j).
    rewrite lookup_insert. case_decide as Hj; [|apply IH].
    subst j. specialize (IH (freshId (moveEnv m))). rewrite Hfresh in IH.
    unfold stateOfLog. by rewrite IH.
  - unfold stateOfLog. rewrite history_snoc. simpl.
    specialize (IH j). destruct (decide (i = j)) as [<-|Hne].
    + rewrite lookup_insert_eq, last_snoc. simpl. apply written_state.
    + rewrite lookup_insert_ne by done. by rewrite app_nil_r.
Qed.

(** C5. The decision timestamp is not kept to one write.  A submit of
    [a1] reads the draft; before its transaction runs, a second submit and
    the regional and national approvals are served, so [a1] is APPROVED
    with decidedAt = 4.  The first submit then writes, without looking at
    the state again: [a1] is SUBMITTED with decidedAt still 4 (set outside
    APPROVED and REJECTED), and the reject served next overwrites it
    with 10. *)
Theorem overtaken_submit_reopens_decision :
  let decided := play (take 4 overtakenSubmit) (quiet storeDraft) in
  let reopened := play overtakenSubmit (quiet storeDraft) in
  let rejected := play rejectAfterwards reopened in
  attainable rejected ∧
  (state <$> applications (store decided) !! "a1" = Some APPROVED ∧
   decidedAt <$> applications (store decided) !! "a1" = Some (Some 4)) ∧
  (state <$> applications (store reopened) !! "a1" = Some SUBMITTED ∧
   decidedAt <$> applications (store reopened) !! "a1" = Some (Some 4)) ∧
  (state <$> applications (store rejected) !! "a1" = Some REJECTED ∧
   decidedAt <$> applications (store rejected) !! "a1" = Some (Some 10)).
Proof.
  split; [|by repeat split].
  apply play_attainable, play_attainable, reachable_attainable,
    storeDraft_reachable.
Qed.

(** C6, amended.  In every store the handlers produce, an application in
    REJECTED has a non-null rejection reason; when calls are served one
    after the other, only an application in REJECTED has one.  A
    successful reject sets the reason to the payload's reasonRejected as
    given (an empty string included) and to "Not specified" when the
    payload omits it; every other successful transition, every failed
    call, and the write of a submit handler whenever it runs, leave the
    reason as it was. *)
Theorem reasonRejected_set_by_reject :
  (∀ sys i row,
     attainable sys → applications (store sys) !! i = Some row →
     state row = REJECTED → is_Some (reasonRejected row)) ∧
  (∀ s i row,
     reachable s → applications s !! i = Some row →
     is_Some (reasonRejected row) → state row = REJECTED) ∧
  (∀ s env user A i data row,
     keyed s → applications s !! i = Some row →
     let r := handle env user (endpoint A i data) s in
     if succeeded r.1 then
       ∃ row', applications r.2 !! i = Some row' ∧
               reasonRejected row' =
                 if decide (A = reject)
                 then Some (default "Not specified"%string
                              (data_reasonRejected data))
                 else reasonRejected row
     else applications r.2 !! i = Some row) ∧
  (∀ s env u app row,
     keyed s → applications s !! id app = Some row →
     ∃ row', applications (submitWrite env u app s).2 !! id app = Some row' ∧
             reasonRejected row' = reasonRejected row).
Proof.
  split; [|split; [|split]].
  - intros sys i row. apply attainable_rejected_reason.
  - intros s i row Hs Hi Hsome.
    pose proof (reachable_consistent s Hs i row Hi) as [_ _ Hr _].
    destruct (decide (state row = REJECTED)) as [|Hne]; [done|].
    apply Hr in Hne. rewrite Hne in Hsome. by destruct Hsome.
  - intros s env user A i data row Hk Hi r.
    destruct (endpoint_effect env user A i data s Hk)
      as [[Hfail Hsame]|(u & a & _ & _ & Hj & _ & Hsent & Hstore)];
      fold r in Hfail, Hsame || fold r in Hsent, Hstore.
    + by rewrite Hfail, Hsame.
    + rewrite Hsent, Hstore. simpl. eexists. rewrite lookup_insert_eq.
      split; [done|]. assert (a = row) as -> by congruence. by destruct A.
  - intros s env u app row Hk Hrow.
    destruct (submitWrite_effect env u app s Hk)
      as [[_ ->]|(row' & Hrow' & ->)]; [by exists row|].
    simpl. eexists. rewrite lookup_insert_eq. split; [done|].
    simpl. congruence.
Qed.

Lemma reasonRejected_set_by_reject_witness :
  keyed storeSubmitted ∧
  ∃ row', applications (handle (env_at 3 "") (Some national)
                          (endpoint reject "a1" emptyData) storeSubmitted).2
            !! "a1" = Some row' ∧
          reasonRejected row' = Some "Not specified"%string.
Proof.
  split; [exact (reachable_keyed _ storeSubmitted_reachable)|].
  exact (proj1 (proj2 (proj2 reasonRejected_set_by_reject))
           storeSubmitted (env_at 3 "") (Some national) reject "a1"
           emptyData _ (reachable_keyed _ storeSubmitted_reachable)
           storeSubmitted_a1).
Defined.




(** X3. The event log tells the state.  In every store the handlers
    produce, with a submit overtaken or not, an application is in the next
    state of the last action recorded for it (in DRAFT when nothing is
    recorded), and an id without a row has no events.  When calls are
    served one after the other, the whole recorded sequence, followed
    through the transition table from DRAFT, consists of actions allowed
    where they occur and ends in the application's state. *)
Theorem event_log_replays :
  (∀ sys i,
     attainable sys →
     match applications (store sys) !! i with
     | Some row => state row = stateOfLog (store sys) i
     | None => history (store sys) i = []
     end) ∧
  (∀ s i,
     reachable s →
     match applications s !! i with
     | Some app => replay DRAFT (history s i) = Some (state app)
     | None => history s i = []
     end).
Proof.
  split.
  - intros sys i. apply attainable_state_of_log.
  - intros s i. apply reachable_history.
Qed.

Lemma event_log_replays_witness :
  attainable (play overtakenSubmit (quiet storeDraft)) ∧
  history (store (play overtakenSubmit (quiet storeDraft))) "a1"
    = [submit; region_approve; national_approve; submit] ∧
  state <$> applications
      (store (play overtakenSubmit (quiet storeDraft))) !! "a1"
    = Some (nextState submit).
Proof.
  split; [exact (play_attainable _ _
                   (reachable_attainable _ storeDraft_reachable))|].
  split; [reflexivity|].
  pose proof (proj1 event_log_replays
                (play overtakenSubmit (quiet storeDraft)) "a1"
                (play_attainable _ _
                   (reachable_attainable _ storeDraft_reachable))) as H.
  destruct (applications _ !! "a1") as [row|] eqn:Hrow; [|discriminate H].
  simpl. f_equal. exact H.
Defined.

Lemma written_stamped env A data row T :
  stamped_by T row →
  (∀ t, submittedAt row = Some t → createdAt row ≤ t) →
  (∀ d, decidedAt row = Some d → createdAt row ≤ d) →
  T ≤ now env →
  stamped_by (now env) (written env A data row) ∧
  (∀ t, submittedAt (written env A data row) = Some t →
        createdAt (written env A data row) ≤ t) ∧
  (∀ d, decidedAt (written env A data row) = Some d →
        createdAt (written env A data row) ≤ d).
Proof.
  intros (Hs1 & Hs2 & Hs3) Hc1 Hc2 HT.
  destruct row as [i c u r S rr f sa da ca]; simpl in *.
  assert (∀ t, sa = Some t → t ≤ now env) as Hs2'
    by (intros t Ht; specialize (Hs2 t Ht); lia).
  assert (∀ d, da = Some d → d ≤ now env) as Hs3'
    by (intros d Ht; specialize (Hs3 d Ht); lia).
  destruct A; simpl; repeat split; simpl; try lia; try done;
    intros; simplify_eq; eauto; lia.
Qed.

Lemma move_stamped m sys T :
  keyed (store sys) → stamped T (store sys) → T ≤ now (moveEnv m) →
  stamped (now (moveEnv m)) (store (move m sys)).
Proof.
  intros Hk (Hrows & Hold & Hsorted) HT.
  assert (∀ i a, applications (store sys) !! i = Some a →
            stamped_by (now (moveEnv m)) a ∧
            (∀ t, submittedAt a = Some t → createdAt a ≤ t) ∧
            (∀ d, decidedAt a = Some d → createdAt a ≤ d)) as Hrows'.
  { intros i a Hi. destruct (Hrows i a Hi) as ((H1 & H2 & H3) & ? & ?).
    repeat split; [lia| | |done..].
    - intros t Ht. specialize (H2 t Ht). lia.
    - intros d Hd. specialize (H3 d Hd). lia. }
  assert (Forall (λ ev, event_at ev ≤ now (moveEnv m)) (events (store sys)))
    as Hold'.
  { eapply Forall_impl; [exact Hold|]. simpl. intros. lia. }
  destruct (move_store m sys Hk)
    as [->|[(c & uid & g & f & _ & ->)|(i & row & A & data & actor & Hi & ->)]];
    [done|..].
  - split; [|done]. simpl. intros j a. rewrite lookup_insert.
    case_decide; [|by apply Hrows'].
    intros [= <-]. repeat split; simpl; try done; lia.
  - destruct (Hrows i row Hi) as (Hst & Hc1 & Hc2).
    split; [|split]; simpl.
    + intros j a. rewrite lookup_insert. case_decide; [|by apply Hrows'].
      intros [= <-]. by apply (written_stamped _ A data row T).
    + apply Forall_app. split; [done|]. by repeat constructor.
    + apply StronglySorted_app_2; [|done|by repeat constructor].
      intros e1 e2 He1 ->%list_elem_of_singleton. unfold at_asc. simpl.
      by apply (proj1 (Forall_forall _ _) Hold').
Qed.

Lemma play_stamped moves sys T :
  keyed (store sys) → stamped T (store sys) → moves_monotone T moves →
  ∃ T', stamped T' (store (play moves sys)).
Proof.
  revert sys T. induction moves as [|m rest IH]; intros sys T Hk Hst Hclock;
    simpl; [by exists T|].
  pose proof (move_keyed m sys Hk) as Hk'.
  destruct m as [env user req|env user j|env k]; simpl in Hclock.
  - destruct Hclock as [HT Hrest].
    apply (IH _ (now env)); [done| |done].
    by apply (move_stamped (Serve env user req) sys T).
  - apply (IH _ T); [done| |done].
    simpl. by destruct (submitRead env user j (store sys)).
  - destruct Hclock as [HT Hrest].
    apply (IH _ (now env)); [done| |done].
    by apply (move_stamped (SubmitWrites env k) sys T).
Qed.

(** X8. When the clock read by the writes never goes back, every
    application produced from empty tables, with a submit overtaken or
    not, was created no later than it was submitted and no later than it
    was decided, and the event log is in the order of its timestamps.
    When calls are served one after the other, an application was moreover
    submitted no later than it was decided. *)
Theorem timestamps_chronological :
  (∀ cs moves T,
     moves_monotone T moves →
     let s := store (play moves (quiet {| applications := ∅; events := [];
                                          companies := cs |})) in
     (∀ i a, applications s !! i = Some a →
             (∀ t, submittedAt a = Some t → createdAt a ≤ t) ∧
             (∀ d, decidedAt a = Some d → createdAt a ≤ d)) ∧
     StronglySorted at_asc (events s)) ∧
  (∀ cs calls T,
     clock_monotone T calls →
     let s := run calls {| applications := ∅; events := [];
                           companies := cs |} in
     (∀ i a, applications s !! i = Some a → chronological a) ∧
     StronglySorted at_asc (events s)).
Proof.
  split.
  - intros cs moves T Hclock s.
    destruct (play_stamped moves
                (quiet {| applications := ∅; events := []; companies := cs |})
                T) as (T' & Hrows & _ & Hsorted); [| |done|].
    + apply reachable_keyed. constructor.
    + split; [|split]; simpl; [|done|constructor].
      intros i a. by rewrite lookup_empty.
    + split; [|done]. intros i a Hi.
      by destruct (Hrows i a Hi) as (_ & ? & ?).
  - intros cs calls T Hclock s.
    destruct (run_timed calls
                {| applications := ∅; events := []; companies := cs |} T)
      as (T' & Hrows & _ & Hsorted); [| |done|].
    + apply reachable_keyed. constructor.
    + split; [|split]; simpl; [|done|constructor].
      intros i a. by rewrite lookup_empty.
    + split; [|done]. intros i a Hi.
      by destruct (Hrows i a Hi) as (_ & ? & _).
Qed.

Lemma timestamps_chronological_witness :
  moves_monotone 0
    (Serve (env_at 1 "a1") (Some rep1) (PostCreate "c1" "GA" "{}")
       :: overtakenSubmit) ∧
  ∀ a, applications (store (play overtakenSubmit (quiet storeDraft))) !! "a1"
         = Some a →
       ∀ d, decidedAt a = Some d → createdAt a ≤ d.
Proof.
  split; [by vm_compute|].
  intros a Ha.
  exact (proj2 (proj1 (proj1 timestamps_chronological _
           (Serve (env_at 1 "a1") (Some rep1) (PostCreate "c1" "GA" "{}")
              :: overtakenSubmit) 0 ltac:(by vm_compute)) "a1" a Ha)).
Defined.



